(** * dither-lab: the pixel transform engine ([utils/ditherAlgorithms.ts])

    A shallow embedding of [processImage] and of the helpers it closes
    over ([clamp], [bayerMatrix4x4], [getPixel], [addError]), followed by
    the properties of the engine.

    - JavaScript numbers are IEEE 754 binary64 values, modelled by
      [spec_float] with the operations of [SpecFloat] at precision 53.
    - A [Uint8ClampedArray] is a [list Z] of bytes; a store converts the
      number with [ToUint8Clamp].
    - A [Float32Array] is a list of numbers; a store rounds to binary32
      ([fround]).
    - Typed arrays read out of range give [undefined] (NaN in arithmetic)
      and ignore writes out of range.
    - [ImageData] objects hold a reference to their byte array in a heap. *)

From Stdlib Require Import ZArith QArith SpecFloat Lia.
From stdpp Require Import base option list strings gmap.

Local Open Scope Z_scope.

(** ** JavaScript numbers *)

Module Num.

Abbreviation number := spec_float.

Definition prec : Z := 53.
Definition emax : Z := 1024.

Definition NaN : number := S754_nan.
Definition add : number -> number -> number := SFadd prec emax.
Definition sub : number -> number -> number := SFsub prec emax.
Definition mul : number -> number -> number := SFmul prec emax.
Definition div : number -> number -> number := SFdiv prec emax.
(** [a < b] and [a > b]; both are false when an operand is NaN. *)
Definition ltb (a b : number) : bool := SFltb a b.
Definition gtb (a b : number) : bool := SFltb b a.

(** An integer literal, or a byte read from a typed array. *)
Definition of_Z (z : Z) : number := binary_normalize prec emax z 0 false.

(** A decimal literal [n / 10^k]: the nearest binary64 value, which is what
    the correctly rounded quotient of the two exact integers is. *)
Definition decimal (n : Z) (pow10 : Z) : number := div (of_Z n) (of_Z pow10).

(** [Math.max] and [Math.min]: NaN if either argument is NaN; +0 is larger
    than -0. *)
Definition Math_max (a b : number) : number :=
  match SFcompare a b with
  | None => NaN
  | Some Gt => a
  | Some Lt => b
  | Some Eq => match a with S754_zero true => b | _ => a end
  end.

Definition Math_min (a b : number) : number :=
  match SFcompare a b with
  | None => NaN
  | Some Lt => a
  | Some Gt => b
  | Some Eq => match a with S754_zero false => b | _ => a end
  end.

(** [Math.fround]: round to the nearest binary32 value (ties to even), and
    read the result back as a binary64 number. *)
Definition fround (a : number) : number :=
  match a with
  | S754_finite s m e =>
      match binary_round 24 128 s m e with
      | S754_finite s' m' e' => binary_round prec emax s' m' e'
      | r => r
      end
  | _ => a
  end.

(** ECMAScript [ToUint8Clamp]: NaN becomes 0, the value is clamped to
    [0, 255], then rounded to the nearest integer, ties to even. *)
Definition ToUint8Clamp (a : number) : Z :=
  match a with
  | S754_nan => 0
  | S754_zero _ => 0
  | S754_infinity s => if s then 0 else 255
  | S754_finite true _ _ => 0
  | S754_finite false m e =>
      if 0 <=? e then Z.min (Z.pos m * 2 ^ e) 255
      else
        let d := 2 ^ (- e) in
        if 255 * d <=? Z.pos m then 255
        else
          let f := Z.pos m / d in
          let r := Z.pos m mod d in
          match 2 * r ?= d with
          | Lt => f
          | Gt => f + 1
          | Eq => if Z.even f then f else f + 1
          end
  end.

End Num.
Import Num.

(** Left-to-right sequencing of updates to one array. *)
Notation "a |> f" := (f a) (at level 68, left associativity, only parsing).

(** ** Typed arrays *)

(** An element read at a JavaScript index: [None] stands for [undefined]. *)
Definition at_index {A} (l : list A) (i : Z) : option A :=
  if i <? 0 then None else l !! Z.to_nat i.

(** An element written at a JavaScript index: ignored out of range. *)
Definition set_index {A} (i : Z) (v : A) (l : list A) : list A :=
  if i <? 0 then l else <[Z.to_nat i := v]> l.

(** [data[i]] on a [Uint8ClampedArray], used as a number: [undefined]
    (hence NaN) out of range. *)
Definition u8_get (data : list Z) (i : Z) : number :=
  match at_index data i with
  | Some v => of_Z v
  | None => NaN
  end.

(** [data[i] = v] on a [Uint8ClampedArray]. *)
Definition u8_set (i : Z) (v : number) (data : list Z) : list Z :=
  set_index i (ToUint8Clamp v) data.

(** [buf[i]] on a [Float32Array]. *)
Definition f32_get (buf : list number) (i : Z) : number :=
  match at_index buf i with
  | Some v => v
  | None => NaN
  end.

(** [buf[i] = v] on a [Float32Array]. *)
Definition f32_set (i : Z) (v : number) (buf : list number) : list number :=
  set_index i (fround v) buf.

(** ** [utils/ditherAlgorithms.ts] *)

(** [const clamp = (val, min, max) => Math.min(Math.max(val, min), max)] *)
Definition clamp (val min max : number) : number :=
  Math_min (Math_max val min) max.

(** Bayer matrix for ordered dithering. *)
Definition bayerMatrix4x4 : list (list Z) :=
  [ [0; 8; 2; 10];
    [12; 4; 14; 6];
    [3; 11; 1; 9];
    [15; 7; 13; 5] ].

(** [bayerMatrix4x4[r][c]], used as a number.  A missing column is
    [undefined], hence NaN; a missing row would be a TypeError, which the
    loops cannot reach since their [y] is never negative, and reads as NaN
    here. *)
Definition bayerEntry (r c : Z) : number :=
  match at_index bayerMatrix4x4 r with
  | Some row => match at_index row c with
                | Some v => of_Z v
                | None => NaN
                end
  | None => NaN
  end.

(** The string-valued enum [DitherAlgorithm] of [types.ts]. *)
Definition DitherAlgorithm := string.
Definition Atkinson : DitherAlgorithm := "Atkinson".
Definition FloydSteinberg : DitherAlgorithm := "Floyd-Steinberg".
Definition Stucki : DitherAlgorithm := "Stucki".
Definition Burkes : DitherAlgorithm := "Burkes".
Definition Sierra : DitherAlgorithm := "Sierra".
Definition Bayer4x4 : DitherAlgorithm := "Bayer 4x4 (Ordered)".
Definition Grayscale : DitherAlgorithm := "Grayscale Only".

(** *** Stage 1: brightness, contrast, luma *)

Definition contrastFactorOf (contrast : number) : number :=
  div (mul (of_Z 259) (add contrast (of_Z 255)))
      (mul (of_Z 255) (sub (of_Z 259) contrast)).

(** One iteration of the first loop, at byte offset [i]. *)
Definition toneBody (brightness contrastFactor : number) (data : list Z) (i : Z)
  : list Z :=
  let r := u8_get data i in
  let g := u8_get data (i + 1) in
  let b := u8_get data (i + 2) in
  let r := add r brightness in
  let g := add g brightness in
  let b := add b brightness in
  let r := clamp (add (mul contrastFactor (sub r (of_Z 128))) (of_Z 128)) (of_Z 0) (of_Z 255) in
  let g := clamp (add (mul contrastFactor (sub g (of_Z 128))) (of_Z 128)) (of_Z 0) (of_Z 255) in
  let b := clamp (add (mul contrastFactor (sub b (of_Z 128))) (of_Z 128)) (of_Z 0) (of_Z 255) in
  let gray := add (add (mul (decimal 299 1000) r) (mul (decimal 587 1000) g))
                  (mul (decimal 114 1000) b) in
  u8_set (i + 2) gray (u8_set (i + 1) gray (u8_set i gray data)).

(** [for (let i = 0; i < data.length; i += 4)]: the offsets visited. *)
Definition toneOffsets (len : nat) : list Z :=
  (λ k, 4 * k) <$> seqZ 0 ((Z.of_nat len + 3) / 4).

Definition toneLoop (brightness contrastFactor : number) (data : list Z) : list Z :=
  foldl (toneBody brightness contrastFactor) data (toneOffsets (length data)).


(** *** Stage 2: the error accumulator *)

(** [for (let i = 0; i < width * height; i++) errorBuffer[i] = data[i * 4]] *)
Definition initErrorBuffer (width height : Z) (data : list Z)
    (errorBuffer : list number) : list number :=
  foldl (λ errorBuffer i, f32_set i (u8_get data (i * 4)) errorBuffer)
        errorBuffer (seqZ 0 (width * height)).

Section Closures.
(** [getPixel] and [addError] close over [width], [height] and
    [errorBuffer]; the buffer is passed explicitly. *)
Variables width height : Z.

Definition outOfBounds (x y : Z) : bool :=
  (x <? 0) || (width <=? x) || (y <? 0) || (height <=? y).

Definition getPixel (errorBuffer : list number) (x y : Z) : number :=
  if outOfBounds x y then of_Z 0 else f32_get errorBuffer (y * width + x).

Definition addError (x y : Z) (err : number) (errorBuffer : list number)
  : list number :=
  if outOfBounds x y then errorBuffer
  else f32_set (y * width + x)
               (add (f32_get errorBuffer (y * width + x)) err) errorBuffer.

(** [quantError * n / d], evaluated left to right. *)
Definition share (quantError : number) (n d : Z) : number :=
  div (mul quantError (of_Z n)) (of_Z d).

(** The if/else-if chain that distributes the error of pixel [(x, y)]. *)
Definition distributeError (algorithm : DitherAlgorithm) (x y : Z)
    (quantError : number) (errorBuffer : list number) : list number :=
  if decide (algorithm = FloydSteinberg) then
    errorBuffer
      |> addError (x + 1) y (share quantError 7 16)
      |> addError (x - 1) (y + 1) (share quantError 3 16)
      |> addError x (y + 1) (share quantError 5 16)
      |> addError (x + 1) (y + 1) (share quantError 1 16)
  else if decide (algorithm = Atkinson) then
    errorBuffer
      |> addError (x + 1) y (share quantError 1 8)
      |> addError (x + 2) y (share quantError 1 8)
      |> addError (x - 1) (y + 1) (share quantError 1 8)
      |> addError x (y + 1) (share quantError 1 8)
      |> addError (x + 1) (y + 1) (share quantError 1 8)
      |> addError x (y + 2) (share quantError 1 8)
  else if decide (algorithm = Stucki) then
    errorBuffer
      |> addError (x + 1) y (share quantError 8 42)
      |> addError (x + 2) y (share quantError 4 42)
      |> addError (x - 2) (y + 1) (share quantError 2 42)
      |> addError (x - 1) (y + 1) (share quantError 4 42)
      |> addError x (y + 1) (share quantError 8 42)
      |> addError (x + 1) (y + 1) (share quantError 4 42)
      |> addError (x + 2) (y + 1) (share quantError 2 42)
      |> addError (x - 2) (y + 2) (share quantError 1 42)
      |> addError (x - 1) (y + 2) (share quantError 2 42)
      |> addError x (y + 2) (share quantError 4 42)
      |> addError (x + 1) (y + 2) (share quantError 2 42)
      |> addError (x + 2) (y + 2) (share quantError 1 42)
  else if decide (algorithm = Burkes) then
    errorBuffer
      |> addError (x + 1) y (share quantError 8 32)
      |> addError (x + 2) y (share quantError 4 32)
      |> addError (x - 2) (y + 1) (share quantError 2 32)
      |> addError (x - 1) (y + 1) (share quantError 4 32)
      |> addError x (y + 1) (share quantError 8 32)
      |> addError (x + 1) (y + 1) (share quantError 4 32)
      |> addError (x + 2) (y + 1) (share quantError 2 32)
  else if decide (algorithm = Sierra) then
    errorBuffer
      |> addError (x + 1) y (share quantError 5 32)
      |> addError (x + 2) y (share quantError 3 32)
      |> addError (x - 2) (y + 1) (share quantError 2 32)
      |> addError (x - 1) (y + 1) (share quantError 4 32)
      |> addError x (y + 1) (share quantError 5 32)
      |> addError (x + 1) (y + 1) (share quantError 4 32)
      |> addError (x + 2) (y + 1) (share quantError 2 32)
      |> addError (x - 1) (y + 2) (share quantError 2 32)
      |> addError x (y + 2) (share quantError 3 32)
      |> addError (x + 1) (y + 2) (share quantError 2 32)
  else errorBuffer.

(** The body of the ordered-dithering loop at [(x, y)]; [%] is the
    remainder that takes the sign of the dividend. *)
Definition bayerBody (errorBuffer : list number) (data : list Z) (x y : Z)
  : list Z :=
  let oldPixel := f32_get errorBuffer (y * width + x) in
  let threshold := mul (div (bayerEntry (Z.rem y 4) (Z.rem x 4)) (of_Z 16)) (of_Z 255) in
  let newPixel := if gtb oldPixel threshold then of_Z 255 else of_Z 0 in
  let idx := (y * width + x) * 4 in
  data |> u8_set idx newPixel |> u8_set (idx + 1) newPixel |> u8_set (idx + 2) newPixel.

Definition bayerLoop (errorBuffer : list number) (data : list Z) : list Z :=
  foldl (λ data y, foldl (λ data x, bayerBody errorBuffer data x y) data (seqZ 0 width))
        data (seqZ 0 height).

(** The body of the error-diffusion loop at [(x, y)], on the pair of the
    two arrays it updates. *)
Definition diffuseBody (algorithm : DitherAlgorithm)
    (st : list Z * list number) (x y : Z) : list Z * list number :=
  let '(data, errorBuffer) := st in
  let oldPixel := f32_get errorBuffer (y * width + x) in
  let newPixel := if ltb oldPixel (of_Z 128) then of_Z 0 else of_Z 255 in
  let quantError := sub oldPixel newPixel in
  let idx := (y * width + x) * 4 in
  let data :=
    data |> u8_set idx newPixel |> u8_set (idx + 1) newPixel |> u8_set (idx + 2) newPixel in
  (data, distributeError algorithm x y quantError errorBuffer).

Definition diffuseLoop (algorithm : DitherAlgorithm)
    (st : list Z * list number) : list Z * list number :=
  foldl (λ st y, foldl (λ st x, diffuseBody algorithm st x y) st (seqZ 0 width))
        st (seqZ 0 height).

End Closures.

(** ** Objects: the heap, exceptions, and [processImage] *)

Definition loc := positive.

(** The heap maps a reference to the bytes of a [Uint8ClampedArray]. *)
Abbreviation heap := (gmap loc (list Z)).

Record ImageData := mkImageData {
  img_width : Z;
  img_height : Z;
  img_data : loc
}.

Inductive exn := RangeError | TypeError | InvalidStateError | IndexSizeError.

Inductive completion (A : Type) :=
| Normal (a : A)
| Throw (e : exn).
Arguments Normal {A} a.
Arguments Throw {A} e.

(** Computations that read and write the heap and may throw. *)
Definition M (A : Type) : Type := heap → completion (A * heap).

#[export] Instance M_ret : MRet M := λ A a σ, Normal (a, σ).
#[export] Instance M_bind : MBind M := λ A B f m σ,
  match m σ with
  | Normal (a, σ') => f a σ'
  | Throw e => Throw e
  end.

Definition throw {A} (e : exn) : M A := λ _, Throw e.

(** [new Uint8ClampedArray(src)]: a fresh array holding a copy of [src]. *)
Definition new_Uint8ClampedArray (src : loc) : M loc := λ σ,
  match σ !! src with
  | Some bytes => let l := fresh (dom σ) in Normal (l, <[l := bytes]> σ)
  | None => Throw TypeError
  end.

(** The contents of the array at [l]. *)
Definition read (l : loc) : M (list Z) := λ σ,
  match σ !! l with
  | Some bytes => Normal (bytes, σ)
  | None => Throw TypeError
  end.

(** Run a loop that updates the array at [l] in place. *)
Definition update (l : loc) (f : list Z → list Z) : M unit := λ σ,
  match σ !! l with
  | Some bytes => Normal (tt, <[l := f bytes]> σ)
  | None => Throw TypeError
  end.

(** [new Float32Array(n)]: [n] zeros; a negative length is a RangeError.
    The array stays local to the call, so it is a value, not a heap cell. *)
Definition new_Float32Array (n : Z) : M (list number) :=
  if n <? 0 then throw RangeError
  else mret (replicate (Z.to_nat n) (of_Z 0)).

(** [new ImageData(data, sw, sh)]: the checks of the constructor. *)
Definition new_ImageData (data : loc) (sw sh : Z) : M ImageData :=
  bytes ← read data;
  let length := Z.of_nat (length bytes) in
  if (length =? 0) || negb (length mod 4 =? 0) then throw InvalidStateError
  else if (sw <=? 0) || negb ((length / 4) mod sw =? 0) then throw IndexSizeError
  else if negb (sh =? length / 4 / sw) then throw IndexSizeError
  else mret (mkImageData sw sh data).

Definition processImage (sourceImageData : ImageData) (algorithm : DitherAlgorithm)
    (brightness contrast : number) : M ImageData :=
  let width := img_width sourceImageData in
  let height := img_height sourceImageData in
  data ← new_Uint8ClampedArray (img_data sourceImageData);
  let contrastFactor := contrastFactorOf contrast in
  update data (toneLoop brightness contrastFactor);;
  if decide (algorithm = Grayscale) then new_ImageData data width height
  else
    zeros ← new_Float32Array (width * height);
    bytes ← read data;
    let errorBuffer := initErrorBuffer width height bytes zeros in
    if decide (algorithm = Bayer4x4) then
      update data (bayerLoop width height errorBuffer);;
      new_ImageData data width height
    else
      update data (λ bytes, (diffuseLoop width height algorithm (bytes, errorBuffer)).1);;
      new_ImageData data width height.

(** Run [processImage] on a single image held in a one-cell heap and read
    the bytes of the result. *)
Definition runOn (width height : Z) (bytes : list Z) (algorithm : DitherAlgorithm)
    (brightness contrast : number) : option (Z * Z * list Z) :=
  match processImage (mkImageData width height 1%positive) algorithm brightness contrast
                     {[ 1%positive := bytes ]} with
  | Normal (out, σ) => (λ b, (img_width out, img_height out, b)) <$> σ !! img_data out
  | Throw _ => None
  end.

(** ** The vocabulary of the specification *)

(** The five error-diffusion algorithms and their enum values. *)
Inductive DiffusionKernel :=
  KFloydSteinberg | KAtkinson | KStucki | KBurkes | KSierra.

Definition kernelName (k : DiffusionKernel) : DitherAlgorithm :=
  match k with
  | KFloydSteinberg => FloydSteinberg
  | KAtkinson => Atkinson
  | KStucki => Stucki
  | KBurkes => Burkes
  | KSierra => Sierra
  end.

(** The kernel table of the specification: [(dx, dy, numerator, denominator)]
    for each weight [numerator/denominator] at offset [(dx, dy)]. *)
Definition kernelTable (k : DiffusionKernel) : list (Z * Z * Z * Z) :=
  match k with
  | KFloydSteinberg =>
      [(1, 0, 7, 16); (-1, 1, 3, 16); (0, 1, 5, 16); (1, 1, 1, 16)]
  | KAtkinson =>
      [(1, 0, 1, 8); (2, 0, 1, 8); (-1, 1, 1, 8); (0, 1, 1, 8); (1, 1, 1, 8); (0, 2, 1, 8)]
  | KStucki =>
      [(1, 0, 8, 42); (2, 0, 4, 42); (-2, 1, 2, 42); (-1, 1, 4, 42); (0, 1, 8, 42);
       (1, 1, 4, 42); (2, 1, 2, 42); (-2, 2, 1, 42); (-1, 2, 2, 42); (0, 2, 4, 42);
       (1, 2, 2, 42); (2, 2, 1, 42)]
  | KBurkes =>
      [(1, 0, 8, 32); (2, 0, 4, 32); (-2, 1, 2, 32); (-1, 1, 4, 32); (0, 1, 8, 32);
       (1, 1, 4, 32); (2, 1, 2, 32)]
  | KSierra =>
      [(1, 0, 5, 32); (2, 0, 3, 32); (-2, 1, 2, 32); (-1, 1, 4, 32); (0, 1, 5, 32);
       (1, 1, 4, 32); (2, 1, 2, 32); (-1, 2, 2, 32); (0, 2, 3, 32); (1, 2, 2, 32)]
  end.

(** [accumulator[x+dx][y+dy] += error * weight] for one entry of the table. *)
Definition applyEntry (width height x y : Z) (error : number)
    (acc : list number) (entry : Z * Z * Z * Z) : list number :=
  let '(dx, dy, n, d) := entry in
  addError width height (x + dx) (y + dy) (share error n d) acc.

Definition applyKernel (width height : Z) (k : DiffusionKernel) (x y : Z)
    (error : number) (acc : list number) : list number :=
  foldl (applyEntry width height x y error) acc (kernelTable k).

(** The sum of the weights of a kernel, as a rational. *)
Definition weightSum (k : DiffusionKernel) : Q :=
  foldr (λ '(_, _, n, d) q, Qplus (Qmake n (Z.to_pos d)) q) (Qmake 0 1) (kernelTable k).

(** Raster order: row 0 left to right, then row 1, and so on. *)
Definition rasterOrder (width height : Z) : list (Z * Z) :=
  y ← seqZ 0 height; x ← seqZ 0 width; [(x, y)].

(** Stage 1 on one channel value, and the luma of three channels. *)
Definition toneChannel (brightness contrast : number) (v : Z) : number :=
  clamp (add (mul (contrastFactorOf contrast)
                  (sub (add (of_Z v) brightness) (of_Z 128)))
             (of_Z 128))
        (of_Z 0) (of_Z 255).

Definition luma (r g b : number) : number :=
  add (add (mul (decimal 299 1000) r) (mul (decimal 587 1000) g))
      (mul (decimal 114 1000) b).

(** The gray byte Stage 1 stores for a pixel with channels [r], [g], [b]. *)
Definition grayByte (brightness contrast : number) (r g b : Z) : Z :=
  ToUint8Clamp (luma (toneChannel brightness contrast r)
                     (toneChannel brightness contrast g)
                     (toneChannel brightness contrast b)).

(** [matrix[y mod 4][x mod 4] / 16 * 255] *)
Definition bayerThreshold (x y : Z) : number :=
  mul (div (bayerEntry (y mod 4) (x mod 4)) (of_Z 16)) (of_Z 255).

(** Quantization to the two output levels. *)
Definition quantize (old : number) : Z := if ltb old (of_Z 128) then 0 else 255.

(** A well-formed pixel buffer: positive dimensions, four bytes per pixel. *)
Definition wf_bytes (width height : Z) (bytes : list Z) : Prop :=
  0 < width ∧ 0 < height ∧ Z.of_nat (length bytes) = 4 * (width * height) ∧
  Forall (λ v, 0 ≤ v ≤ 255) bytes.

Definition wf_image (σ : heap) (img : ImageData) : Prop :=
  ∃ bytes, σ !! img_data img = Some bytes ∧
           wf_bytes (img_width img) (img_height img) bytes.

(** Channel [c] of pixel [k] of an image in a heap. *)
Definition channel (σ : heap) (img : ImageData) (k c : Z) : option Z :=
  bytes ← σ !! img_data img; at_index bytes (4 * k + c).

Definition bytesOf (σ : heap) (img : ImageData) : list Z :=
  default [] (σ !! img_data img).

(** The cell an entry of a kernel table writes, if any. *)
Definition entryTouches (width height x y : Z) (entry : Z * Z * Z * Z) (j : Z) : Prop :=
  let '(dx, dy, _, _) := entry in
  0 ≤ x + dx < width ∧ 0 ≤ y + dy < height ∧ j = (y + dy) * width + (x + dx).

(** The error-diffusion loop over an explicit list of pixels. *)
Definition diffuseOver (width height : Z) (algorithm : DitherAlgorithm)
    (st : list Z * list number) (pixels : list (Z * Z)) : list Z * list number :=
  foldl (λ st p, diffuseBody width height algorithm st p.1 p.2) st pixels.

(** The state in which the error-diffusion loop reaches pixel [(x, y)]. *)
Definition reached (width height : Z) (algorithm : DitherAlgorithm)
    (st : list Z * list number) (x y : Z) : list Z * list number :=
  diffuseOver width height algorithm st
              (take (Z.to_nat (y * width + x)) (rasterOrder width height)).

(** The ordered-dithering loop over an explicit list of pixels. *)
Definition bayerOver (width height : Z) (errorBuffer : list number)
    (data : list Z) (pixels : list (Z * Z)) : list Z :=
  foldl (λ data p, bayerBody width errorBuffer data p.1 p.2) data pixels.

(** The bytes of the returned image, from the bytes of the source image. *)
Definition resultBytes (width height : Z) (algorithm : DitherAlgorithm)
    (brightness contrast : number) (bytes : list Z) : list Z :=
  let toned := toneLoop brightness (contrastFactorOf contrast) bytes in
  if decide (algorithm = Grayscale) then toned
  else
    let errorBuffer :=
      initErrorBuffer width height toned
                      (replicate (Z.to_nat (width * height)) (of_Z 0)) in
    if decide (algorithm = Bayer4x4) then bayerLoop width height errorBuffer toned
    else (diffuseLoop width height algorithm (toned, errorBuffer)).1.

(** Every pixel of a buffer of [n] pixels has R = G = B. *)
Definition grayPixels (n : Z) (bytes : list Z) : Prop :=
  ∀ k, 0 ≤ k < n →
    ∃ v, at_index bytes (4 * k) = Some v
         ∧ at_index bytes (4 * k + 1) = Some v
         ∧ at_index bytes (4 * k + 2) = Some v.

(** Every pixel of a buffer of [n] pixels is pure black or pure white. *)
Definition binaryPixels (n : Z) (bytes : list Z) : Prop :=
  ∀ k, 0 ≤ k < n →
    ∃ v, (v = 0 ∨ v = 255)
         ∧ at_index bytes (4 * k) = Some v
         ∧ at_index bytes (4 * k + 1) = Some v
         ∧ at_index bytes (4 * k + 2) = Some v.

(** Every cell of an accumulator holds 0 or 255. *)
Definition binaryCells (acc : list number) : Prop :=
  Forall (λ v, v = of_Z 0 ∨ v = of_Z 255) acc.

(** ** [components/App.tsx], [components/ui/Slider.tsx], [hooks/useTheme.ts] *)

(** [Math.floor]: an integral, infinite or NaN argument is returned as it is;
    a positive fraction below 1 gives +0. *)
Definition Math_floor (a : number) : number :=
  match a with
  | S754_finite s m e =>
      if 0 <=? e then a
      else
        let r := (if s then Z.neg m else Z.pos m) / 2 ^ (- e) in
        if r =? 0 then S754_zero s else of_Z r
  | _ => a
  end.

(** [Math.round]: the nearest integer, ties towards +infinity; a result of
    zero keeps the sign of the argument. *)
Definition Math_round (a : number) : number :=
  match a with
  | S754_finite s m e =>
      if 0 <=? e then a
      else
        let d := 2 ^ (- e) in
        let r := (2 * (if s then Z.neg m else Z.pos m) + d) / (2 * d) in
        if r =? 0 then S754_zero s else of_Z r
  | _ => a
  end.

(** The target dimensions computed in [triggerProcessing] from the natural
    size of the loaded image and the resolution scale. *)
Definition targetDimensions (srcWidth srcHeight resolutionScale : number)
  : number * number :=
  let aspectRatio := div srcWidth srcHeight in
  let TARGET_SHORT_SIDE := of_Z 384 in
  let '(targetWidth, targetHeight) :=
    if ltb srcWidth srcHeight then
      (TARGET_SHORT_SIDE, div TARGET_SHORT_SIDE aspectRatio)
    else
      (mul TARGET_SHORT_SIDE aspectRatio, TARGET_SHORT_SIDE) in
  let width := Math_max (of_Z 1) (Math_floor (mul targetWidth resolutionScale)) in
  let height := Math_max (of_Z 1) (Math_floor (mul targetHeight resolutionScale)) in
  (width, height).

(** [interface ImageSettings] of [types.ts]. *)
Record ImageSettings := mkImageSettings {
  resolutionScale : number;
  brightness : number;
  contrast : number;
  algorithm : DitherAlgorithm
}.

Definition INITIAL_SETTINGS : ImageSettings :=
  {| resolutionScale := of_Z 1;
     brightness := of_Z 0;
     contrast := of_Z 0;
     algorithm := Atkinson |}.

(** [Object.values(DitherAlgorithm)]: the values in declaration order. *)
Definition DITHER_MODES : list DitherAlgorithm :=
  [Atkinson; FloydSteinberg; Stucki; Burkes; Sierra; Bayer4x4; Grayscale].



Definition onResolutionChange (val : number) (s : ImageSettings) : ImageSettings :=
  {| resolutionScale := div val (of_Z 100); brightness := brightness s;
     contrast := contrast s; algorithm := algorithm s |}.



(** The [value] passed to the resolution slider, and the number its label
    formats: [settings.resolutionScale * 100] and [Math.round(v)]. *)
Definition resolutionSliderValue (s : ImageSettings) : number :=
  mul (resolutionScale s) (of_Z 100).

Definition resolutionLabel (v : number) : number := Math_round v.

(** The positions of the resolution slider: [min=10], [max=100], [step=5]. *)
Definition resolutionSteps : list Z := (λ i, 10 + 5 * i) <$> seqZ 0 19.

(** [Slider]: [const percentage = ((value - min) / (max - min)) * 100]. *)
Definition percentage (value min max : number) : number :=
  mul (div (sub value min) (sub max min)) (of_Z 100).

(** [useTheme]: the part of the browser the hook reads and writes. *)
Record Browser := mkBrowser {
  classList : gset string;          (* of [document.documentElement] *)
  localStorage : gmap string string;
  prefersDark : bool                (* [matchMedia(...).matches] *)
}.

(** The initial state of [useState<Theme>]: [None] stands for a missing
    [window]; [stored || 'system'] falls back on [null] and on the empty
    string. *)
Definition initialTheme (window : option Browser) : string :=
  match window with
  | Some b =>
      match localStorage b !! "theme" with
      | Some stored => if decide (stored = "") then "system" else stored
      | None => "system"
      end
  | None => "system"
  end.

Definition applyTheme (t : string) (b : Browser) : Browser :=
  if decide (t = "dark" ∨ (t = "system" ∧ prefersDark b = true)) then
    {| classList := classList b ∪ {["dark"]};
       localStorage := localStorage b; prefersDark := prefersDark b |}
  else
    {| classList := classList b ∖ {["dark"]};
       localStorage := localStorage b; prefersDark := prefersDark b |}.

(** The body of the effect: [applyTheme(theme)] then
    [localStorage.setItem('theme', theme)]. *)
Definition themeEffect (theme : string) (b : Browser) : Browser :=
  let b := applyTheme theme b in
  {| classList := classList b;
     localStorage := <["theme" := theme]> (localStorage b);
     prefersDark := prefersDark b |}.

(** The [change] listener of the media query, run after the system
    preference became [matches]. *)
Definition themeListener (theme : string) (matches : bool) (b : Browser) : Browser :=
  let b := {| classList := classList b; localStorage := localStorage b;
              prefersDark := matches |} in
  if decide (theme = "system") then applyTheme "system" b else b.

(** Well-formedness of a concrete buffer. *)
Ltac solve_wf_bytes :=
  unfold wf_bytes; simpl;
  split; [lia | split; [lia | split; [reflexivity | compute_done]]].

#[export] Instance number_eq_dec : EqDecision number.
Proof. solve_decision. Defined.

(** ** Arrays *)

Section Arrays.
Context {A : Type}.
Implicit Types (l : list A) (i j : Z).

Lemma set_index_length i v l : length (set_index i v l) = length l.
Proof. unfold set_index. case_match; [done | apply length_insert]. Qed.

Lemma at_set_index_ne i j v l : i ≠ j → at_index (set_index i v l) j = at_index l j.
Proof.
  intros Hne. unfold at_index, set_index.
  destruct (Z.ltb_spec j 0); [done |].
  destruct (Z.ltb_spec i 0); [done |].
  apply list_lookup_insert_ne. lia.
Qed.

Lemma at_set_index_eq i v l :
  0 ≤ i < Z.of_nat (length l) → at_index (set_index i v l) i = Some v.
Proof.
  intros Hi. unfold at_index, set_index.
  destruct (Z.ltb_spec i 0); [lia |].
  apply list_lookup_insert_eq. lia.
Qed.

Lemma at_index_Some i l :
  0 ≤ i < Z.of_nat (length l) → is_Some (at_index l i).
Proof.
  intros Hi. unfold at_index. destruct (Z.ltb_spec i 0); [lia |].
  apply lookup_lt_is_Some. lia.
Qed.

Lemma at_index_lt i l v : at_index l i = Some v → 0 ≤ i < Z.of_nat (length l).
Proof.
  unfold at_index. destruct (Z.ltb_spec i 0); [done |].
  intros Hl%lookup_lt_Some. lia.
Qed.

Lemma at_index_ext l1 l2 :
  length l1 = length l2 → (∀ i, at_index l1 i = at_index l2 i) → l1 = l2.
Proof.
  intros Hlen Hext. apply list_eq. intros n.
  specialize (Hext (Z.of_nat n)). unfold at_index in Hext.
  destruct (Z.ltb_spec (Z.of_nat n) 0); [lia |].
  by rewrite Nat2Z.id in Hext.
Qed.
End Arrays.

(** A loop whose iterations each write a few cells leaves every other cell
    as it was. *)
Section Frame.
Context {S I V : Type}.
Variable step : S → I → S.
Variable obs : S → Z → V.
Variable touches : I → Z → Prop.
Hypothesis step_frame : ∀ s i j, ¬ touches i j → obs (step s i) j = obs s j.

Lemma foldl_frame (l : list I) (s : S) (j : Z) :
  (∀ i, i ∈ l → ¬ touches i j) → obs (foldl step s l) j = obs s j.
Proof.
  revert s. induction l as [| i l IH]; intros s Hno; [done |].
  simpl. rewrite IH.
  - apply step_frame, Hno. left.
  - intros i' Hi'. apply Hno. by right.
Qed.
End Frame.

Lemma foldl_ext_in {S I} (f g : S → I → S) (l : list I) (s : S) :
  (∀ s i, i ∈ l → f s i = g s i) → foldl f s l = foldl g s l.
Proof.
  revert s. induction l as [| i l IH]; intros s Hfg; [done |].
  simpl. rewrite Hfg by left. apply IH. intros s' i' Hi'. apply Hfg. by right.
Qed.

Lemma foldl_invariant {S I} (P : S → Prop) (f : S → I → S) (l : list I) (s : S) :
  (∀ s i, P s → P (f s i)) → P s → P (foldl f s l).
Proof.
  intros Hstep. revert s. induction l as [| i l IH]; intros s Hs; [done |].
  simpl. by apply IH, Hstep.
Qed.

(** Splitting [seqZ] at an element. *)
Lemma seqZ_split (n k : Z) :
  0 ≤ k < n → seqZ 0 n = seqZ 0 k ++ k :: seqZ (k + 1) (n - k - 1).
Proof.
  intros Hk. replace n with (k + (1 + (n - k - 1))) at 1 by lia.
  rewrite seqZ_app by lia. f_equal.
  rewrite seqZ_cons by lia. simpl. f_equal. f_equal; lia.
Qed.

(** ** Stage 1 *)

Lemma u8_set_length i v data : length (u8_set i v data) = length data.
Proof. apply set_index_length. Qed.

Lemma u8_get_Some data i v : at_index data i = Some v → u8_get data i = of_Z v.
Proof. unfold u8_get. by intros ->. Qed.

Lemma toneBody_length b cf data i : length (toneBody b cf data i) = length data.
Proof. unfold toneBody. by rewrite !u8_set_length. Qed.

Lemma toneBody_frame b cf data i j :
  ¬ (i ≤ j ≤ i + 2) → at_index (toneBody b cf data i) j = at_index data j.
Proof.
  intros Hj. unfold toneBody, u8_set.
  rewrite !at_set_index_ne by lia. done.
Qed.

Lemma toneBody_self b contrast data i r g bl c :
  at_index data i = Some r →
  at_index data (i + 1) = Some g →
  at_index data (i + 2) = Some bl →
  0 ≤ c < 3 →
  at_index (toneBody b (contrastFactorOf contrast) data i) (i + c)
  = Some (grayByte b contrast r g bl).
Proof.
  intros Hr Hg Hb Hc. unfold toneBody.
  rewrite (u8_get_Some _ _ _ Hr), (u8_get_Some _ _ _ Hg), (u8_get_Some _ _ _ Hb).
  apply at_index_lt in Hr as Hr', Hb as Hb'.
  fold (toneChannel b contrast r) (toneChannel b contrast g) (toneChannel b contrast bl).
  fold (luma (toneChannel b contrast r) (toneChannel b contrast g)
             (toneChannel b contrast bl)).
  fold (grayByte b contrast r g bl).
  unfold u8_set.
  assert (c = 0 ∨ c = 1 ∨ c = 2) as [-> | [-> | ->]] by lia.
  - rewrite Z.add_0_r, !at_set_index_ne by lia.
    apply at_set_index_eq. lia.
  - rewrite at_set_index_ne by lia.
    apply at_set_index_eq. rewrite set_index_length. lia.
  - apply at_set_index_eq. rewrite !set_index_length. lia.
Qed.

Lemma toneOffsets_wf (len : nat) (n : Z) :
  Z.of_nat len = 4 * n → toneOffsets len = (λ k, 4 * k) <$> seqZ 0 n.
Proof.
  intros Hlen. unfold toneOffsets. do 2 f_equal.
  rewrite Hlen. replace (4 * n + 3) with (3 + n * 4) by lia.
  rewrite Z.div_add by lia. reflexivity.
Qed.

Lemma toneLoop_length b cf data : length (toneLoop b cf data) = length data.
Proof.
  unfold toneLoop. generalize (toneOffsets (length data)).
  intros l. revert data. induction l as [| i l IH]; intros data; [done |].
  simpl. by rewrite IH, toneBody_length.
Qed.

(** Every colour channel of pixel [k] becomes the gray byte of that pixel's
    own input channels. *)
Lemma toneLoop_gray b contrast data n k r g bl c :
  Z.of_nat (length data) = 4 * n →
  0 ≤ k < n →
  at_index data (4 * k) = Some r →
  at_index data (4 * k + 1) = Some g →
  at_index data (4 * k + 2) = Some bl →
  0 ≤ c < 3 →
  at_index (toneLoop b (contrastFactorOf contrast) data) (4 * k + c)
  = Some (grayByte b contrast r g bl).
Proof.
  intros Hlen Hk Hr Hg Hb Hc. unfold toneLoop.
  rewrite (toneOffsets_wf _ n Hlen), (seqZ_split n k Hk).
  rewrite fmap_app, fmap_cons, foldl_app. simpl.
  set (cf := contrastFactorOf contrast).
  set (pre := foldl (toneBody b cf) data ((λ k, 4 * k) <$> seqZ 0 k)).
  assert (Hpre : ∀ j, 4 * k ≤ j ≤ 4 * k + 3 → at_index pre j = at_index data j).
  { intros j Hj. unfold pre.
    apply (foldl_frame (toneBody b cf) at_index (λ i j, i ≤ j ≤ i + 2)).
    - intros. by apply toneBody_frame.
    - intros i [k' [-> Hk'%elem_of_seqZ]]%list_elem_of_fmap. lia. }
  rewrite (foldl_frame (toneBody b cf) at_index (λ i j, i ≤ j ≤ i + 2)).
  - apply toneBody_self; rewrite ?Hpre by lia; done.
  - intros. by apply toneBody_frame.
  - intros i [k' [-> Hk'%elem_of_seqZ]]%list_elem_of_fmap. lia.
Qed.

(** The alpha byte of every pixel is left as it was. *)
Lemma toneLoop_alpha b cf data k :
  at_index (toneLoop b cf data) (4 * k + 3) = at_index data (4 * k + 3).
Proof.
  unfold toneLoop.
  apply (foldl_frame (toneBody b cf) at_index (λ i j, i ≤ j ≤ i + 2)).
  - intros. by apply toneBody_frame.
  - intros i [k' [-> _]]%list_elem_of_fmap. lia.
Qed.

Lemma ToUint8Clamp_range (a : number) : 0 ≤ ToUint8Clamp a ≤ 255.
Proof.
  destruct a as [s | s | | s m e]; simpl; try lia.
  - destruct s; lia.
  - destruct s; [lia |].
    destruct (Z.leb_spec 0 e).
    + assert (0 < 2 ^ e) by (apply Z.pow_pos_nonneg; lia). nia.
    + assert (0 < 2 ^ (- e)) as Hd by (apply Z.pow_pos_nonneg; lia).
      destruct (Z.leb_spec (255 * 2 ^ (- e)) (Z.pos m)); [lia |].
      assert (0 ≤ Z.pos m / 2 ^ (- e) < 255).
      { split; [apply Z.div_pos; lia | apply Z.div_lt_upper_bound; lia]. }
      destruct (2 * (Z.pos m mod 2 ^ (- e)) ?= 2 ^ (- e)); [case_match | |]; lia.
Qed.

Lemma grayByte_range b c r g bl : 0 ≤ grayByte b c r g bl ≤ 255.
Proof. apply ToUint8Clamp_range. Qed.

(** ** Raster order *)

Lemma foldl_nested {S} (f : S → Z → Z → S) (xs ys : list Z) (s : S) :
  foldl (λ s y, foldl (λ s x, f s x y) s xs) s ys
  = foldl (λ s p, f s p.1 p.2) s (y ← ys; x ← xs; [(x, y)]).
Proof.
  revert s. induction ys as [| y ys IH]; intros s; [done |].
  rewrite bind_cons, foldl_app. simpl. rewrite IH. f_equal.
  clear. revert s. induction xs as [| x xs IH]; intros s; [done |].
  rewrite bind_cons. simpl. apply IH.
Qed.

Lemma bind_pair_fmap (xs : list Z) (y : Z) :
  (x ← xs; [(x, y)]) = (λ x, (x, y)) <$> xs.
Proof.
  induction xs as [| x xs IH]; [done |].
  rewrite bind_cons, IH. done.
Qed.

Lemma rasterOrder_flat (width : Z) (n : nat) :
  0 < width →
  rasterOrder width (Z.of_nat n)
  = (λ k, (k mod width, k / width)) <$> seqZ 0 (width * Z.of_nat n).
Proof.
  intros Hw. unfold rasterOrder. induction n as [| n IH].
  - by rewrite Z.mul_0_r.
  - rewrite seqZ_S, bind_app, IH.
    replace (width * Z.of_nat (S n)) with (width * Z.of_nat n + width) by lia.
    rewrite seqZ_app by lia. rewrite fmap_app. f_equal.
    rewrite bind_cons. simpl. rewrite !app_nil_r, bind_pair_fmap, !Z.add_0_l.
    replace (seqZ (width * Z.of_nat n) width)
      with (Z.add (width * Z.of_nat n) <$> seqZ 0 width)
      by (rewrite fmap_add_seqZ; f_equal; lia).
    rewrite <- list_fmap_compose.
    apply Forall_fmap_ext_1, Forall_forall.
    intros x Hx%elem_of_seqZ. simpl. f_equal.
    + rewrite Z.add_comm, Z.mul_comm, Z.mod_add by lia. symmetry. apply Z.mod_small. lia.
    + rewrite Z.add_comm, Z.mul_comm, Z.div_add by lia.
      rewrite Z.div_small by lia. lia.
Qed.

(** The [k]-th pixel visited in raster order is [(k mod width, k / width)]:
    pixel [(x, y)] is visited after exactly [y * width + x] others. *)
Lemma rasterOrder_lookup (width height x y : Z) :
  0 ≤ x < width → 0 ≤ y < height →
  rasterOrder width height !! Z.to_nat (y * width + x) = Some (x, y).
Proof.
  intros Hx Hy. rewrite <- (Z2Nat.id height) by lia.
  rewrite rasterOrder_flat by lia. rewrite Z2Nat.id by lia.
  rewrite list_lookup_fmap, lookup_seqZ_lt by nia. simpl.
  replace (0 + Z.of_nat (Z.to_nat (y * width + x))) with (x + y * width) by nia.
  do 2 f_equal.
  - rewrite Z.mod_add by lia. apply Z.mod_small. lia.
  - rewrite Z.div_add by lia. rewrite Z.div_small by lia. lia.
Qed.

Lemma rasterOrder_elem_of (width height x y : Z) :
  (x, y) ∈ rasterOrder width height ↔ 0 ≤ x < width ∧ 0 ≤ y < height.
Proof.
  unfold rasterOrder. rewrite list_elem_of_bind. split.
  - intros [y' [[x' [Hin Hx]]%list_elem_of_bind Hy]].
    apply list_elem_of_singleton in Hin. simplify_eq.
    apply elem_of_seqZ in Hx, Hy. lia.
  - intros [Hx Hy]. exists y. split; [| apply elem_of_seqZ; lia].
    apply list_elem_of_bind. exists x. split; [by left | apply elem_of_seqZ; lia].
Qed.

Lemma rasterOrder_NoDup (width height : Z) : NoDup (rasterOrder width height).
Proof.
  destruct (decide (0 < width)) as [Hw | Hw].
  - destruct (decide (0 ≤ height)) as [Hh | Hh].
    + rewrite <- (Z2Nat.id height) by lia. rewrite rasterOrder_flat by lia.
      apply NoDup_fmap_2_strong; [| apply NoDup_seqZ].
      intros k1 k2 _ _ Heq. injection Heq as Hmod Hdiv.
      pose proof (Z.div_mod k1 width) as H1. pose proof (Z.div_mod k2 width) as H2.
      rewrite H1, H2 by lia. congruence.
    + unfold rasterOrder. rewrite (seqZ_nil 0 height) by lia. constructor.
  - unfold rasterOrder. rewrite (seqZ_nil 0 width) by lia.
    induction (seqZ 0 height); [constructor | done].
Qed.

(** The raster order split at pixel [(x, y)]: the pixels before it and the
    pixels after it, none of which is [(x, y)] itself. *)
Lemma rasterOrder_split (width height x y : Z) :
  0 ≤ x < width → 0 ≤ y < height →
  let k := Z.to_nat (y * width + x) in
  (rasterOrder width height
   = take k (rasterOrder width height) ++ ((x, y) :: drop (S k) (rasterOrder width height)))
  ∧ ((x, y) ∉ take k (rasterOrder width height))
  ∧ ((x, y) ∉ drop (S k) (rasterOrder width height)).
Proof.
  intros Hx Hy k.
  pose proof (take_drop_middle _ _ _ (rasterOrder_lookup width height x y Hx Hy)) as Hsplit.
  fold k in Hsplit. split; [done |].
  pose proof (rasterOrder_NoDup width height) as Hnd.
  rewrite <- Hsplit in Hnd. apply NoDup_app in Hnd as (_ & Hpre & Hsuf).
  apply NoDup_cons in Hsuf as [Hsuf _]. split; [| done].
  intros Hin. apply (Hpre _ Hin). left.
Qed.

(** Distinct pixels inside the image have distinct cells. *)
Lemma cell_inj (width x1 y1 x2 y2 : Z) :
  0 ≤ x1 < width → 0 ≤ x2 < width →
  y1 * width + x1 = y2 * width + x2 → x1 = x2 ∧ y1 = y2.
Proof. intros H1 H2 Heq. assert (y1 = y2) by nia. subst. lia. Qed.

Lemma cell_in_range (width height x y : Z) :
  0 ≤ x < width → 0 ≤ y < height → 0 ≤ y * width + x < width * height.
Proof. intros Hx Hy. nia. Qed.

(** The pixels before and after [(x, y)] in raster order are other pixels
    of the image, so none of their bytes is a byte of [(x, y)]. *)
Lemma rasterOrder_others (width height x y : Z) (p : Z * Z) :
  0 ≤ x < width → 0 ≤ y < height →
  p ∈ take (Z.to_nat (y * width + x)) (rasterOrder width height)
  ∨ p ∈ drop (S (Z.to_nat (y * width + x))) (rasterOrder width height) →
  p ≠ (x, y) ∧ 0 ≤ p.1 < width ∧ 0 ≤ p.2 < height.
Proof.
  intros Hx Hy Hp.
  destruct (rasterOrder_split width height x y Hx Hy) as (Hsplit & Hpre & Hsuf).
  split; [intros ->; tauto |].
  destruct p as [x' y']. apply rasterOrder_elem_of. rewrite Hsplit.
  apply elem_of_app. destruct Hp as [Hp | Hp]; [by left | right; by right].
Qed.

Lemma other_pixel_bytes (width x y : Z) (p : Z * Z) (j : Z) :
  0 ≤ x < width → 0 ≤ p.1 < width → p ≠ (x, y) →
  (y * width + x) * 4 ≤ j ≤ (y * width + x) * 4 + 3 →
  ¬ ((p.2 * width + p.1) * 4 ≤ j ≤ (p.2 * width + p.1) * 4 + 2).
Proof.
  destruct p as [x' y']. simpl. intros Hx Hx' Hne Hj Hj'.
  assert (y' * width + x' = y * width + x) as Heq by lia.
  apply cell_inj in Heq as [-> ->]; [done | lia | lia].
Qed.

Lemma other_pixel_cell (width x y : Z) (p : Z * Z) :
  0 ≤ x < width → 0 ≤ p.1 < width → p ≠ (x, y) →
  p.2 * width + p.1 ≠ y * width + x.
Proof.
  destruct p as [x' y']. simpl. intros Hx Hx' Hne Heq.
  apply cell_inj in Heq as [-> ->]; [done | lia | lia].
Qed.

(** ** The error accumulator *)

Section Accumulator.
Variables width height : Z.
Implicit Types (acc : list number) (x y j : Z).

Lemma outOfBounds_false x y :
  outOfBounds width height x y = false ↔ 0 ≤ x < width ∧ 0 ≤ y < height.
Proof.
  unfold outOfBounds. rewrite !orb_false_iff, !Z.ltb_ge, !Z.leb_gt. lia.
Qed.

Lemma outOfBounds_true x y :
  outOfBounds width height x y = true ↔ ¬ (0 ≤ x < width ∧ 0 ≤ y < height).
Proof.
  rewrite <- outOfBounds_false. destruct (outOfBounds width height x y); naive_solver.
Qed.

Lemma addError_length x y err acc :
  length (addError width height x y err acc) = length acc.
Proof.
  unfold addError, f32_set. case_match; [done | apply set_index_length].
Qed.

(** Outside the image nothing is written. *)
Lemma addError_outside x y err acc :
  ¬ (0 ≤ x < width ∧ 0 ≤ y < height) → addError width height x y err acc = acc.
Proof. intros Hout%outOfBounds_true. unfold addError. by rewrite Hout. Qed.

(** A call writes no cell but the one of its own pixel. *)
Lemma addError_frame x y err acc j :
  j ≠ y * width + x →
  at_index (addError width height x y err acc) j = at_index acc j.
Proof.
  intros Hj. unfold addError, f32_set. case_match; [done |].
  by apply at_set_index_ne.
Qed.

Lemma addError_self x y err acc old :
  0 ≤ x < width → 0 ≤ y < height →
  at_index acc (y * width + x) = Some old →
  at_index (addError width height x y err acc) (y * width + x)
  = Some (fround (add old err)).
Proof.
  intros Hx Hy Hold. unfold addError, f32_set, f32_get.
  rewrite (proj2 (outOfBounds_false x y)) by done.
  rewrite Hold. apply at_set_index_eq. by apply at_index_lt in Hold.
Qed.

Lemma applyEntry_length x y err acc entry :
  length (applyEntry width height x y err acc entry) = length acc.
Proof. destruct entry as [[[dx dy] n] d]. apply addError_length. Qed.

Lemma applyEntry_frame x y err acc entry j :
  ¬ entryTouches width height x y entry j →
  at_index (applyEntry width height x y err acc entry) j = at_index acc j.
Proof.
  destruct entry as [[[dx dy] n] d]. simpl. intros Hno.
  destruct (decide (0 ≤ x + dx < width ∧ 0 ≤ y + dy < height)) as [Hin | Hout].
  - apply addError_frame. intros Hj. apply Hno. tauto.
  - by rewrite addError_outside.
Qed.

Lemma foldl_applyEntry_length x y err tbl acc :
  length (foldl (applyEntry width height x y err) acc tbl) = length acc.
Proof.
  revert acc. induction tbl as [| e tbl IH]; intros acc; [done |].
  simpl. by rewrite IH, applyEntry_length.
Qed.

Lemma foldl_applyEntry_frame x y err tbl acc j :
  (∀ entry, entry ∈ tbl → ¬ entryTouches width height x y entry j) →
  at_index (foldl (applyEntry width height x y err) acc tbl) j = at_index acc j.
Proof.
  apply (foldl_frame (applyEntry width height x y err) at_index (entryTouches width height x y)).
  intros. by apply applyEntry_frame.
Qed.

(** With pairwise distinct offsets, the cell of an entry inside the image
    receives that entry's share, once. *)
Lemma foldl_applyEntry_self x y err tbl acc dx dy n d old :
  NoDup ((λ e, (e.1.1.1, e.1.1.2)) <$> tbl) →
  (dx, dy, n, d) ∈ tbl →
  0 ≤ x + dx < width → 0 ≤ y + dy < height →
  at_index acc ((y + dy) * width + (x + dx)) = Some old →
  at_index (foldl (applyEntry width height x y err) acc tbl)
           ((y + dy) * width + (x + dx))
  = Some (fround (add old (share err n d))).
Proof.
  intros Hnd Hin Hx Hy Hold.
  apply list_elem_of_split in Hin as (pre & suf & ->).
  rewrite fmap_app, fmap_cons in Hnd. simpl in Hnd.
  apply NoDup_app in Hnd as (_ & Hpre & Hsuf).
  apply NoDup_cons in Hsuf as [Hsuf _].
  assert (Hother : ∀ entry, (entry.1.1.1, entry.1.1.2) ≠ (dx, dy) →
            ¬ entryTouches width height x y entry ((y + dy) * width + (x + dx))).
  { intros [[[dx' dy'] n'] d'] Hne (Hx' & Hy' & Heq). simpl in Hne.
    apply cell_inj in Heq as [? ?]; [| lia | lia].
    apply Hne. f_equal; lia. }
  rewrite foldl_app. simpl. rewrite foldl_applyEntry_frame.
  - apply addError_self; [done | done |].
    rewrite foldl_applyEntry_frame; [done |].
    intros entry Hentry. apply Hother. intros Heq.
    apply (Hpre (dx, dy)); [| left].
    apply list_elem_of_fmap. by exists entry.
  - intros entry Hentry. apply Hother. intros Heq.
    apply Hsuf. apply list_elem_of_fmap. by exists entry.
Qed.

(** The if/else-if chain of the code is the kernel table of the
    specification, applied entry by entry. *)
Lemma distributeError_table (k : DiffusionKernel) x y err acc :
  distributeError width height (kernelName k) x y err acc
  = applyKernel width height k x y err acc.
Proof.
  unfold distributeError, applyKernel.
  destruct k; simpl; by rewrite !Z.add_0_r.
Qed.

(** An algorithm name that selects no branch distributes nothing. *)
Lemma distributeError_none (algorithm : DitherAlgorithm) x y err acc :
  (∀ k, algorithm ≠ kernelName k) →
  distributeError width height algorithm x y err acc = acc.
Proof.
  intros Hno. unfold distributeError.
  pose proof (Hno KFloydSteinberg). pose proof (Hno KAtkinson).
  pose proof (Hno KStucki). pose proof (Hno KBurkes). pose proof (Hno KSierra).
  repeat (case_decide; [done |]). done.
Qed.

Lemma distributeError_length algorithm x y err acc :
  length (distributeError width height algorithm x y err acc) = length acc.
Proof.
  unfold distributeError.
  repeat (case_decide; [by rewrite !addError_length |]). done.
Qed.

End Accumulator.

(** ** Facts about bytes, checked on all 256 values *)

Lemma forall_bytes (P : Z → Prop) `{!∀ v, Decision (P v)} :
  forallb (λ v, bool_decide (P v)) (seqZ 0 256) = true → ∀ v, 0 ≤ v ≤ 255 → P v.
Proof.
  intros Hall v Hv. rewrite forallb_forall in Hall.
  eapply bool_decide_eq_true_1, Hall, list_elem_of_In, elem_of_seqZ. lia.
Qed.

(** A byte is stored in a [Float32Array] without rounding. *)
Lemma fround_byte (v : Z) : 0 ≤ v ≤ 255 → fround (of_Z v) = of_Z v.
Proof.
  revert v. apply (forall_bytes (λ v, fround (of_Z v) = of_Z v)).
  vm_compute. reflexivity.
Qed.

(** A byte stored in a [Uint8ClampedArray] reads back as itself. *)
Lemma ToUint8Clamp_byte (v : Z) : 0 ≤ v ≤ 255 → ToUint8Clamp (of_Z v) = v.
Proof.
  revert v. apply (forall_bytes (λ v, ToUint8Clamp (of_Z v) = v)).
  vm_compute. reflexivity.
Qed.

(** With brightness 0 and contrast 0 the tone stage is the identity on a
    channel. *)
Lemma toneChannel_neutral (v : Z) :
  0 ≤ v ≤ 255 → toneChannel (of_Z 0) (of_Z 0) v = of_Z v.
Proof.
  revert v. apply (forall_bytes (λ v, toneChannel (of_Z 0) (of_Z 0) v = of_Z v)).
  vm_compute. reflexivity.
Qed.

(** A gray pixel [(v, v, v)] keeps its value under neutral tone mapping. *)
Lemma grayByte_neutral_gray (v : Z) :
  0 ≤ v ≤ 255 → grayByte (of_Z 0) (of_Z 0) v v v = v.
Proof.
  revert v. apply (forall_bytes (λ v, grayByte (of_Z 0) (of_Z 0) v v v = v)).
  vm_compute. reflexivity.
Qed.

(** ** Stage 2: initialisation of the accumulator *)

Lemma f32_set_length i v buf : length (f32_set i v buf) = length buf.
Proof. apply set_index_length. Qed.

Lemma initErrorBuffer_length width height data buf :
  length (initErrorBuffer width height data buf) = length buf.
Proof.
  unfold initErrorBuffer. generalize (seqZ 0 (width * height)). intros l.
  revert buf. induction l as [| i l IH]; intros buf; [done |].
  simpl. by rewrite IH, f32_set_length.
Qed.

(** Cell [i] of the accumulator starts as the gray byte of pixel [i]. *)
Lemma initErrorBuffer_lookup width height data buf i :
  Z.of_nat (length buf) = width * height →
  0 ≤ i < width * height →
  at_index (initErrorBuffer width height data buf) i
  = Some (fround (u8_get data (i * 4))).
Proof.
  intros Hlen Hi. unfold initErrorBuffer.
  rewrite (seqZ_split _ i Hi), foldl_app. simpl.
  set (step := λ (errorBuffer : list number) (i : Z),
                 f32_set i (u8_get data (i * 4)) errorBuffer).
  rewrite (foldl_frame step at_index (λ i j, i = j)).
  - apply at_set_index_eq.
    rewrite (foldl_invariant (λ b, length b = length buf)); [lia | | done].
    intros b j Hb. unfold step. by rewrite f32_set_length.
  - intros b j j' Hne. unfold step, f32_set. by apply at_set_index_ne.
  - intros j Hj%elem_of_seqZ. lia.
Qed.

(** ** Stage 2: ordered dithering *)

Section Bayer.
Variables width height : Z.
Variable errorBuffer : list number.

Lemma bayerBody_length data x y :
  length (bayerBody width errorBuffer data x y) = length data.
Proof. unfold bayerBody. by rewrite !u8_set_length. Qed.

Lemma bayerBody_frame data x y j :
  ¬ ((y * width + x) * 4 ≤ j ≤ (y * width + x) * 4 + 2) →
  at_index (bayerBody width errorBuffer data x y) j = at_index data j.
Proof.
  intros Hj. unfold bayerBody, u8_set. rewrite !at_set_index_ne by lia. done.
Qed.

Lemma bayerBody_self data x y c :
  0 ≤ x → 0 ≤ y →
  0 ≤ (y * width + x) * 4 → (y * width + x) * 4 + 2 < Z.of_nat (length data) →
  0 ≤ c < 3 →
  at_index (bayerBody width errorBuffer data x y) ((y * width + x) * 4 + c)
  = Some (if gtb (f32_get errorBuffer (y * width + x)) (bayerThreshold x y)
          then 255 else 0).
Proof.
  intros Hx Hy Hlo Hhi Hc. unfold bayerBody.
  rewrite !Z.rem_mod_nonneg by lia. fold (bayerThreshold x y).
  set (newPixel := if gtb _ _ then of_Z 255 else of_Z 0).
  assert (ToUint8Clamp newPixel
          = if gtb (f32_get errorBuffer (y * width + x)) (bayerThreshold x y)
            then 255 else 0) as <-.
  { unfold newPixel. by destruct (gtb _ _). }
  unfold u8_set.
  assert (c = 0 ∨ c = 1 ∨ c = 2) as [-> | [-> | ->]] by lia.
  - rewrite Z.add_0_r, !at_set_index_ne by lia. apply at_set_index_eq. lia.
  - rewrite at_set_index_ne by lia. apply at_set_index_eq.
    rewrite set_index_length. lia.
  - apply at_set_index_eq. rewrite !set_index_length. lia.
Qed.

Lemma bayerLoop_over data :
  bayerLoop width height errorBuffer data
  = bayerOver width height errorBuffer data (rasterOrder width height).
Proof.
  unfold bayerLoop, bayerOver, rasterOrder.
  apply (foldl_nested (λ data x y, bayerBody width errorBuffer data x y)).
Qed.

Lemma bayerOver_length data pixels :
  length (bayerOver width height errorBuffer data pixels) = length data.
Proof.
  unfold bayerOver. revert data. induction pixels as [| p l IH]; intros data; [done |].
  simpl. by rewrite IH, bayerBody_length.
Qed.

Lemma bayerOver_frame data pixels j :
  (∀ p, p ∈ pixels → ¬ ((p.2 * width + p.1) * 4 ≤ j ≤ (p.2 * width + p.1) * 4 + 2)) →
  at_index (bayerOver width height errorBuffer data pixels) j = at_index data j.
Proof.
  apply (foldl_frame (λ data p, bayerBody width errorBuffer data p.1 p.2) at_index
           (λ p j, (p.2 * width + p.1) * 4 ≤ j ≤ (p.2 * width + p.1) * 4 + 2)).
  intros. by apply bayerBody_frame.
Qed.

(** The colour channels of pixel [(x, y)] after the loop. *)
Lemma bayerLoop_pixel data x y c :
  Z.of_nat (length data) = 4 * (width * height) →
  0 ≤ x < width → 0 ≤ y < height → 0 ≤ c < 3 →
  at_index (bayerLoop width height errorBuffer data) ((y * width + x) * 4 + c)
  = Some (if gtb (f32_get errorBuffer (y * width + x)) (bayerThreshold x y)
          then 255 else 0).
Proof.
  intros Hlen Hx Hy Hc. rewrite bayerLoop_over.
  destruct (rasterOrder_split width height x y Hx Hy) as (Hsplit & _ & _).
  pose proof (cell_in_range width height x y Hx Hy) as Hcell.
  rewrite Hsplit. unfold bayerOver. rewrite foldl_app. simpl.
  fold (bayerOver width height errorBuffer data
          (take (Z.to_nat (y * width + x)) (rasterOrder width height))).
  set (pre := bayerOver _ _ _ _ _).
  fold (bayerOver width height errorBuffer (bayerBody width errorBuffer pre x y)
          (drop (S (Z.to_nat (y * width + x))) (rasterOrder width height))).
  rewrite bayerOver_frame.
  - apply bayerBody_self; [lia | lia | lia | | done].
    unfold pre. rewrite bayerOver_length. lia.
  - intros p Hp.
    destruct (rasterOrder_others width height x y p Hx Hy) as (Hne & Hpx & _);
      [by right |].
    apply (other_pixel_bytes width x y p); [done | done | done | lia].
Qed.

Lemma bayerLoop_alpha data k :
  at_index (bayerLoop width height errorBuffer data) (4 * k + 3)
  = at_index data (4 * k + 3).
Proof.
  rewrite bayerLoop_over. apply bayerOver_frame. intros p _. lia.
Qed.

Lemma bayerLoop_length data :
  length (bayerLoop width height errorBuffer data) = length data.
Proof. rewrite bayerLoop_over. apply bayerOver_length. Qed.

End Bayer.

(** ** Stage 2: error diffusion *)

Section Diffusion.
Variables width height : Z.
Variable algorithm : DitherAlgorithm.
Implicit Types (st : list Z * list number) (x y j c : Z).

Lemma ToUint8Clamp_quantize (old : number) :
  ToUint8Clamp (if ltb old (of_Z 128) then of_Z 0 else of_Z 255) = quantize old.
Proof. unfold quantize. by destruct (ltb old (of_Z 128)). Qed.

Lemma quantize_binary (old : number) : quantize old = 0 ∨ quantize old = 255.
Proof. unfold quantize. destruct (ltb old (of_Z 128)); auto. Qed.

Lemma diffuseBody_data_length st x y :
  length (diffuseBody width height algorithm st x y).1 = length st.1.
Proof. destruct st as [data acc]. simpl. by rewrite !u8_set_length. Qed.

Lemma diffuseBody_acc_length st x y :
  length (diffuseBody width height algorithm st x y).2 = length st.2.
Proof. destruct st as [data acc]. simpl. apply distributeError_length. Qed.

(** The accumulator after pixel [(x, y)]: the error [old - new] of that
    pixel, distributed. *)
Lemma diffuseBody_acc st x y :
  let old := f32_get st.2 (y * width + x) in
  let new := if ltb old (of_Z 128) then of_Z 0 else of_Z 255 in
  (diffuseBody width height algorithm st x y).2
  = distributeError width height algorithm x y (sub old new) st.2.
Proof. by destruct st as [data acc]. Qed.

Lemma diffuseBody_data_frame st x y j :
  ¬ ((y * width + x) * 4 ≤ j ≤ (y * width + x) * 4 + 2) →
  at_index (diffuseBody width height algorithm st x y).1 j = at_index st.1 j.
Proof.
  intros Hj. destruct st as [data acc]. simpl. unfold u8_set.
  rewrite !at_set_index_ne by lia. done.
Qed.

Lemma diffuseBody_data_self st x y c :
  0 ≤ (y * width + x) * 4 → (y * width + x) * 4 + 2 < Z.of_nat (length st.1) →
  0 ≤ c < 3 →
  at_index (diffuseBody width height algorithm st x y).1 ((y * width + x) * 4 + c)
  = Some (quantize (f32_get st.2 (y * width + x))).
Proof.
  intros Hlo Hhi Hc. destruct st as [data acc]. simpl in *.
  rewrite <- ToUint8Clamp_quantize.
  set (newPixel := if ltb _ _ then of_Z 0 else of_Z 255).
  unfold u8_set.
  assert (c = 0 ∨ c = 1 ∨ c = 2) as [-> | [-> | ->]] by lia.
  - rewrite Z.add_0_r, !at_set_index_ne by lia. apply at_set_index_eq. lia.
  - rewrite at_set_index_ne by lia. apply at_set_index_eq.
    rewrite set_index_length. lia.
  - apply at_set_index_eq. rewrite !set_index_length. lia.
Qed.

(** The two nested loops visit the pixels in raster order. *)
Lemma diffuseLoop_over st :
  diffuseLoop width height algorithm st
  = diffuseOver width height algorithm st (rasterOrder width height).
Proof.
  unfold diffuseLoop, diffuseOver, rasterOrder.
  apply (foldl_nested (λ st x y, diffuseBody width height algorithm st x y)).
Qed.

Lemma diffuseOver_app st l1 l2 :
  diffuseOver width height algorithm st (l1 ++ l2)
  = diffuseOver width height algorithm (diffuseOver width height algorithm st l1) l2.
Proof. apply foldl_app. Qed.

Lemma diffuseOver_data_length st pixels :
  length (diffuseOver width height algorithm st pixels).1 = length st.1.
Proof.
  unfold diffuseOver. revert st. induction pixels as [| p l IH]; intros st; [done |].
  simpl. by rewrite IH, diffuseBody_data_length.
Qed.

Lemma diffuseOver_acc_length st pixels :
  length (diffuseOver width height algorithm st pixels).2 = length st.2.
Proof.
  unfold diffuseOver. revert st. induction pixels as [| p l IH]; intros st; [done |].
  simpl. by rewrite IH, diffuseBody_acc_length.
Qed.

Lemma diffuseOver_data_frame st pixels j :
  (∀ p, p ∈ pixels → ¬ ((p.2 * width + p.1) * 4 ≤ j ≤ (p.2 * width + p.1) * 4 + 2)) →
  at_index (diffuseOver width height algorithm st pixels).1 j = at_index st.1 j.
Proof.
  apply (foldl_frame (λ st p, diffuseBody width height algorithm st p.1 p.2)
           (λ st j, at_index st.1 j)
           (λ p j, (p.2 * width + p.1) * 4 ≤ j ≤ (p.2 * width + p.1) * 4 + 2)).
  intros. by apply diffuseBody_data_frame.
Qed.

(** The colour channels of pixel [(x, y)] after the loop: the quantized
    value of the accumulator cell as it was when the pixel was reached. *)
Lemma diffuseLoop_pixel st x y c :
  Z.of_nat (length st.1) = 4 * (width * height) →
  0 ≤ x < width → 0 ≤ y < height → 0 ≤ c < 3 →
  at_index (diffuseLoop width height algorithm st).1 ((y * width + x) * 4 + c)
  = Some (quantize (f32_get (reached width height algorithm st x y).2 (y * width + x))).
Proof.
  intros Hlen Hx Hy Hc. rewrite diffuseLoop_over.
  destruct (rasterOrder_split width height x y Hx Hy) as (Hsplit & _ & _).
  pose proof (cell_in_range width height x y Hx Hy) as Hcell.
  rewrite Hsplit at 1. rewrite diffuseOver_app. fold (reached width height algorithm st x y).
  change (diffuseOver width height algorithm (reached width height algorithm st x y) ((x, y) :: ?l))
    with (diffuseOver width height algorithm
            (diffuseBody width height algorithm (reached width height algorithm st x y) x y) l).
  rewrite diffuseOver_data_frame.
  - apply diffuseBody_data_self; [lia | | done].
    unfold reached. rewrite diffuseOver_data_length. lia.
  - intros p Hp.
    destruct (rasterOrder_others width height x y p Hx Hy) as (Hne & Hpx & _);
      [by right |].
    apply (other_pixel_bytes width x y p); [done | done | done | lia].
Qed.

(** One more pixel: the state after [(x, y)] is the body run on the state
    in which it was reached. *)
Lemma reached_next st x y :
  0 ≤ x < width → 0 ≤ y < height →
  diffuseOver width height algorithm st
              (take (S (Z.to_nat (y * width + x))) (rasterOrder width height))
  = diffuseBody width height algorithm (reached width height algorithm st x y) x y.
Proof.
  intros Hx Hy.
  rewrite (take_S_r _ _ _ (rasterOrder_lookup width height x y Hx Hy)).
  by rewrite diffuseOver_app.
Qed.

Lemma diffuseLoop_alpha st k :
  at_index (diffuseLoop width height algorithm st).1 (4 * k + 3)
  = at_index st.1 (4 * k + 3).
Proof.
  rewrite diffuseLoop_over. apply diffuseOver_data_frame. intros p _. lia.
Qed.

Lemma diffuseLoop_data_length st :
  length (diffuseLoop width height algorithm st).1 = length st.1.
Proof. rewrite diffuseLoop_over. apply diffuseOver_data_length. Qed.

(** Without a kernel branch the accumulator never changes. *)
Lemma diffuseOver_acc_none st pixels :
  (∀ k, algorithm ≠ kernelName k) →
  (diffuseOver width height algorithm st pixels).2 = st.2.
Proof.
  intros Hno. unfold diffuseOver. revert st.
  induction pixels as [| p l IH]; intros st; [done |].
  simpl. rewrite IH, diffuseBody_acc. by apply distributeError_none.
Qed.

End Diffusion.

(** ** [processImage] on the heap *)

Lemma new_ImageData_ok (σ : heap) (data : loc) (bytes : list Z) (sw sh : Z) :
  σ !! data = Some bytes →
  0 < sw → 0 < sh → Z.of_nat (length bytes) = 4 * (sw * sh) →
  new_ImageData data sw sh σ = Normal (mkImageData sw sh data, σ).
Proof.
  intros Hσ Hw Hh Hlen. unfold new_ImageData, mbind, M_bind, read. rewrite Hσ.
  rewrite Hlen.
  assert (4 * (sw * sh) / 4 = sw * sh) as Hdiv
    by (rewrite Z.mul_comm; apply Z.div_mul; lia).
  assert (4 * (sw * sh) ≠ 0) by nia.
  rewrite (proj2 (Z.eqb_neq _ _)) by done.
  rewrite Z.mul_comm, Z.mod_mul by lia. simpl.
  rewrite (Z.mul_comm _ 4), Hdiv.
  rewrite (proj2 (Z.leb_gt _ _)) by done.
  rewrite Z.mul_comm, Z.mod_mul by lia. simpl.
  rewrite Z.div_mul by lia. rewrite Z.eqb_refl. done.
Qed.

Lemma resultBytes_length width height algorithm brightness contrast bytes :
  length (resultBytes width height algorithm brightness contrast bytes) = length bytes.
Proof.
  unfold resultBytes. cbv zeta.
  destruct (decide (algorithm = Grayscale)); [| destruct (decide (algorithm = Bayer4x4))].
  - apply toneLoop_length.
  - rewrite bayerLoop_length. apply toneLoop_length.
  - rewrite diffuseLoop_data_length. apply toneLoop_length.
Qed.

(** On a well-formed image the call returns normally: it allocates one fresh
    array, which holds [resultBytes] at the end, and wraps it. *)
Lemma processImage_run (σ : heap) (src : ImageData) (bytes : list Z)
    (algorithm : DitherAlgorithm) (brightness contrast : number) :
  σ !! img_data src = Some bytes →
  wf_bytes (img_width src) (img_height src) bytes →
  processImage src algorithm brightness contrast σ
  = Normal (mkImageData (img_width src) (img_height src) (fresh (dom σ)),
            <[fresh (dom σ) :=
                resultBytes (img_width src) (img_height src) algorithm
                            brightness contrast bytes]> σ).
Proof.
  intros Hσ (Hw & Hh & Hlen & _).
  unfold processImage, resultBytes, mbind, M_bind, new_Uint8ClampedArray, update.
  rewrite Hσ. simpl. rewrite lookup_insert_eq, insert_insert_eq.
  set (l := fresh (dom σ)).
  set (toned := toneLoop brightness (contrastFactorOf contrast) bytes).
  assert (Z.of_nat (length toned) = 4 * (img_width src * img_height src)) as Htoned
    by (unfold toned; by rewrite toneLoop_length).
  destruct (decide (algorithm = Grayscale)).
  - apply (new_ImageData_ok _ _ toned); [apply lookup_insert_eq | done | done | done].
  - unfold new_Float32Array.
    rewrite (proj2 (Z.ltb_ge _ _)) by nia.
    unfold mret, M_ret, read. rewrite lookup_insert_eq.
    destruct (decide (algorithm = Bayer4x4)).
    + rewrite lookup_insert_eq, insert_insert_eq.
      eapply new_ImageData_ok; [apply lookup_insert_eq | done | done |].
      by rewrite bayerLoop_length.
    + rewrite lookup_insert_eq, insert_insert_eq.
      eapply new_ImageData_ok; [apply lookup_insert_eq | done | done |].
      by rewrite diffuseLoop_data_length.
Qed.

(** ** From the source image to the accumulator *)

Lemma wf_bytes_byte width height bytes i v :
  wf_bytes width height bytes → at_index bytes i = Some v → 0 ≤ v ≤ 255.
Proof.
  intros (_ & _ & _ & Hall) Hv. unfold at_index in Hv.
  destruct (i <? 0); [done |].
  rewrite Forall_forall in Hall. eapply Hall, list_elem_of_lookup_2, Hv.
Qed.

Lemma wf_bytes_pixel width height bytes x y c :
  wf_bytes width height bytes → 0 ≤ x < width → 0 ≤ y < height → 0 ≤ c < 4 →
  is_Some (at_index bytes (4 * (y * width + x) + c)).
Proof.
  intros (_ & _ & Hlen & _) Hx Hy Hc. apply at_index_Some.
  pose proof (cell_in_range width height x y Hx Hy). lia.
Qed.

(** After Stage 1, the accumulator cell of a pixel holds its gray byte,
    exactly. *)
Lemma accumulator_init width height brightness contrast bytes x y r g bl :
  wf_bytes width height bytes →
  0 ≤ x < width → 0 ≤ y < height →
  at_index bytes (4 * (y * width + x)) = Some r →
  at_index bytes (4 * (y * width + x) + 1) = Some g →
  at_index bytes (4 * (y * width + x) + 2) = Some bl →
  f32_get (initErrorBuffer width height
             (toneLoop brightness (contrastFactorOf contrast) bytes)
             (replicate (Z.to_nat (width * height)) (of_Z 0)))
          (y * width + x)
  = of_Z (grayByte brightness contrast r g bl).
Proof.
  intros Hwf Hx Hy Hr Hg Hb.
  pose proof (cell_in_range width height x y Hx Hy) as Hcell.
  destruct Hwf as (Hw & Hh & Hlen & _).
  unfold f32_get. rewrite initErrorBuffer_lookup.
  - rewrite (u8_get_Some _ _ (grayByte brightness contrast r g bl)).
    + apply fround_byte, grayByte_range.
    + replace ((y * width + x) * 4) with (4 * (y * width + x) + 0) by lia.
      by apply (toneLoop_gray _ _ _ (width * height)).
  - rewrite length_replicate. lia.
  - done.
Qed.

(** Every byte of the result is a byte. *)
Lemma Forall_set_index {A} (P : A → Prop) i v (l : list A) :
  Forall P l → P v → Forall P (set_index i v l).
Proof.
  intros Hl Hv. unfold set_index. case_match; [done |].
  destruct (decide (Z.to_nat i < length l)%nat).
  - by apply Forall_insert.
  - rewrite list_insert_ge by lia. done.
Qed.

Lemma u8_set_bytes i v data :
  Forall (λ v, 0 ≤ v ≤ 255) data → Forall (λ v, 0 ≤ v ≤ 255) (u8_set i v data).
Proof. intros Hd. apply Forall_set_index; [done | apply ToUint8Clamp_range]. Qed.

Lemma resultBytes_bytes width height algorithm brightness contrast bytes :
  Forall (λ v, 0 ≤ v ≤ 255) bytes →
  Forall (λ v, 0 ≤ v ≤ 255)
         (resultBytes width height algorithm brightness contrast bytes).
Proof.
  intros Hbytes. unfold resultBytes. cbv zeta.
  assert (Htoned : Forall (λ v, 0 ≤ v ≤ 255)
                     (toneLoop brightness (contrastFactorOf contrast) bytes)).
  { unfold toneLoop. apply foldl_invariant; [| done].
    intros s i Hs. unfold toneBody. by repeat apply u8_set_bytes. }
  destruct (decide (algorithm = Grayscale)); [done |].
  destruct (decide (algorithm = Bayer4x4)).
  - unfold bayerLoop. apply foldl_invariant; [| done].
    intros s y Hs. apply foldl_invariant; [| done].
    intros s' x Hs'. unfold bayerBody. by repeat apply u8_set_bytes.
  - unfold diffuseLoop.
    apply (foldl_invariant (λ st, Forall (λ v, 0 ≤ v ≤ 255) st.1)); [| done].
    intros s y Hs.
    apply (foldl_invariant (λ st, Forall (λ v, 0 ≤ v ≤ 255) st.1)); [| done].
    intros [d a] x Hs'. simpl. by repeat apply u8_set_bytes.
Qed.

Lemma resultBytes_wf width height algorithm brightness contrast bytes :
  wf_bytes width height bytes →
  wf_bytes width height (resultBytes width height algorithm brightness contrast bytes).
Proof.
  intros (Hw & Hh & Hlen & Hall). repeat split; [done | done | |].
  - by rewrite resultBytes_length.
  - by apply resultBytes_bytes.
Qed.

(** The alpha byte of every pixel of the result is that of the source. *)
Lemma resultBytes_alpha width height algorithm brightness contrast bytes k :
  at_index (resultBytes width height algorithm brightness contrast bytes) (4 * k + 3)
  = at_index bytes (4 * k + 3).
Proof.
  unfold resultBytes. cbv zeta.
  destruct (decide (algorithm = Grayscale)); [apply toneLoop_alpha |].
  destruct (decide (algorithm = Bayer4x4)).
  - rewrite bayerLoop_alpha. apply toneLoop_alpha.
  - rewrite diffuseLoop_alpha. apply toneLoop_alpha.
Qed.

(** Reading a channel of the returned image. *)
Lemma channel_result (σ : heap) (l : loc) (bytes : list Z) (w h k c : Z) :
  channel (<[l := bytes]> σ) (mkImageData w h l) k c = at_index bytes (4 * k + c).
Proof. unfold channel. simpl. by rewrite lookup_insert_eq. Qed.

(** ** What [clamp] returns *)

(** Comparison of two positive finite numbers, read in the other
    direction. *)
Lemma SFcompare_finite_swap (m M : positive) (e E : Z) :
  SFcompare (S754_finite false M E) (S754_finite false m e)
  = CompOpp <$> SFcompare (S754_finite false m e) (S754_finite false M E).
Proof.
  unfold SFcompare. rewrite (Z.compare_antisym e E).
  destruct (e ?= E); simpl; [| done | done].
  f_equal. rewrite Pos.compare_cont_antisym. reflexivity.
Qed.

(** Every number is NaN, below 0, above 255, or between the two. *)
Lemma byte_range_cases (u : number) :
  u = NaN
  ∨ ltb u (of_Z 0) = true
  ∨ ltb (of_Z 255) u = true
  ∨ (SFleb (of_Z 0) u = true ∧ SFleb u (of_Z 255) = true).
Proof.
  destruct u as [s | s | | s m e].
  - right; right; right. by destruct s.
  - destruct s; [right; left | right; right; left]; reflexivity.
  - by left.
  - destruct s; [right; left; reflexivity |].
    assert (Hswap : SFcompare (of_Z 255) (S754_finite false m e)
                    = CompOpp <$> SFcompare (S754_finite false m e) (of_Z 255))
      by apply SFcompare_finite_swap.
    unfold ltb, SFltb, SFleb. rewrite Hswap.
    destruct (SFcompare (S754_finite false m e) (of_Z 255)) as [[] |] eqn:Hcmp.
    + right; right; right. by split.
    + right; right; right. by split.
    + right; right; left. reflexivity.
    + exfalso. revert Hcmp. unfold SFcompare.
      change (of_Z 255) with (S754_finite false 8972014882652160 (-45)).
      discriminate.
Qed.

(** [clamp(u, 0, 255)] in each of these cases. *)
Lemma clamp_cases (u : number) :
  let c := clamp u (of_Z 0) (of_Z 255) in
  (u = NaN → c = NaN)
  ∧ (ltb u (of_Z 0) = true → c = of_Z 0)
  ∧ (ltb (of_Z 255) u = true → c = of_Z 255)
  ∧ (SFleb (of_Z 0) u = true → SFleb u (of_Z 255) = true →
     (u ≠ S754_zero true → c = u) ∧ (u = S754_zero true → c = of_Z 0)).
Proof.
  cbv zeta. destruct u as [s | s | | s m e].
  - assert (clamp (S754_zero s) (of_Z 0) (of_Z 255) = of_Z 0) as ->
      by (by destruct s).
    split; [discriminate |]. split; [done |].
    split; [by destruct s |]. intros _ _.
    split; [| done]. destruct s; [done | by intros _].
  - destruct s.
    + change (clamp (S754_infinity true) (of_Z 0) (of_Z 255)) with (of_Z 0).
      split; [discriminate |]. split; [done |]. split; discriminate.
    + change (clamp (S754_infinity false) (of_Z 0) (of_Z 255)) with (of_Z 255).
      split; [discriminate |]. split; [discriminate |]. split; [done |].
      intros _. discriminate.
  - split; [done |]. split; [discriminate |]. split; discriminate.
  - destruct s.
    + change (clamp (S754_finite true m e) (of_Z 0) (of_Z 255)) with (of_Z 0).
      split; [discriminate |]. split; [done |]. split; discriminate.
    + assert (Hswap : SFcompare (of_Z 255) (S754_finite false m e)
                      = CompOpp <$> SFcompare (S754_finite false m e) (of_Z 255))
        by apply SFcompare_finite_swap.
      unfold clamp.
      change (Math_max (S754_finite false m e) (of_Z 0)) with (S754_finite false m e).
      unfold Math_min, ltb, SFltb, SFleb. rewrite Hswap.
      split; [discriminate |]. split; [discriminate |].
      destruct (SFcompare (S754_finite false m e) (of_Z 255)) as [[] |] eqn:Hcmp;
        simpl; (split; [done || discriminate |]); intros _ Hle;
        (discriminate Hle || (split; [done | discriminate])).
Qed.

(** * The properties of the engine *)

(** C3. Stage 1 maps each of R, G, B of every pixel as
    [v'' = clamp(contrastFactor * (v + brightness - 128) + 128, 0, 255)]
    with [contrastFactor = (259 * (contrast + 255)) / (255 * (259 - contrast))],
    with no clamp between the brightness addition and the contrast step;
    [gray = 0.299*R'' + 0.587*G'' + 0.114*B''] is computed from those
    channels, and [gray], rounded and clamped to a byte, is stored into R,
    G and B alike, while alpha is left untouched.  Here [clamp(u, 0, 255)]
    is 0 when [u < 0], 255 when [u > 255], and [u] itself when
    [0 <= u <= 255] (a negative zero is returned as +0); it is NaN when [u]
    is NaN; and every number is in one of these four cases. *)
Theorem C3_tone_mapping (width height : Z) (bytes : list Z)
    (brightness contrast : number) (k r g b a : Z) :
  wf_bytes width height bytes →
  0 ≤ k < width * height →
  at_index bytes (4 * k) = Some r →
  at_index bytes (4 * k + 1) = Some g →
  at_index bytes (4 * k + 2) = Some b →
  at_index bytes (4 * k + 3) = Some a →
  let contrastFactor :=
    div (mul (of_Z 259) (add contrast (of_Z 255)))
        (mul (of_Z 255) (sub (of_Z 259) contrast)) in
  let tone v :=
    clamp (add (mul contrastFactor (sub (add (of_Z v) brightness) (of_Z 128)))
               (of_Z 128))
          (of_Z 0) (of_Z 255) in
  let gray :=
    add (add (mul (decimal 299 1000) (tone r)) (mul (decimal 587 1000) (tone g)))
        (mul (decimal 114 1000) (tone b)) in
  let out := toneLoop brightness (contrastFactorOf contrast) bytes in
  contrastFactorOf contrast = contrastFactor
  ∧ at_index out (4 * k) = Some (ToUint8Clamp gray)
  ∧ at_index out (4 * k + 1) = Some (ToUint8Clamp gray)
  ∧ at_index out (4 * k + 2) = Some (ToUint8Clamp gray)
  ∧ at_index out (4 * k + 3) = Some a
  ∧ 0 ≤ ToUint8Clamp gray ≤ 255
  ∧ (∀ u : number,
       let c := clamp u (of_Z 0) (of_Z 255) in
       (u = NaN → c = NaN)
       ∧ (ltb u (of_Z 0) = true → c = of_Z 0)
       ∧ (ltb (of_Z 255) u = true → c = of_Z 255)
       ∧ (SFleb (of_Z 0) u = true → SFleb u (of_Z 255) = true →
          (u ≠ S754_zero true → c = u) ∧ (u = S754_zero true → c = of_Z 0)))
  ∧ (∀ u : number,
       u = NaN
       ∨ ltb u (of_Z 0) = true
       ∨ ltb (of_Z 255) u = true
       ∨ (SFleb (of_Z 0) u = true ∧ SFleb u (of_Z 255) = true)).
Proof.
  intros (Hw & Hh & Hlen & Hall) Hk Hr Hg Hb Ha. cbv zeta.
  pose proof (toneLoop_gray brightness contrast bytes (width * height) k r g b)
    as Hgray.
  split; [done |].
  split; [rewrite <- (Z.add_0_r (4 * k)); apply Hgray; (done || lia) |].
  split; [apply Hgray; (done || lia) |].
  split; [apply Hgray; (done || lia) |].
  split; [by rewrite toneLoop_alpha |].
  split; [apply ToUint8Clamp_range |].
  split; [apply clamp_cases | apply byte_range_cases].
Qed.

Lemma C3_tone_mapping_witness :
  wf_bytes 1 1 [255; 100; 0; 7]
  ∧ 0 ≤ 0 < 1 * 1
  ∧ at_index [255; 100; 0; 7] (4 * 0) = Some 255
  ∧ at_index [255; 100; 0; 7] (4 * 0 + 1) = Some 100
  ∧ at_index [255; 100; 0; 7] (4 * 0 + 2) = Some 0
  ∧ at_index [255; 100; 0; 7] (4 * 0 + 3) = Some 7
  ∧ at_index (toneLoop (of_Z 0) (contrastFactorOf (of_Z 100)) [255; 100; 0; 7]) 0
    = Some 114
  ∧ at_index (toneLoop (of_Z 0) (contrastFactorOf (of_Z 100)) [255; 100; 0; 7]) 3
    = Some 7
  ∧ clamp (add (mul (contrastFactorOf (of_Z 100))
                    (sub (add (of_Z 255) (of_Z 0)) (of_Z 128)))
               (of_Z 128))
          (of_Z 0) (of_Z 255)
    = of_Z 255
  ∧ clamp (add (mul (contrastFactorOf (of_Z 100))
                    (sub (add (of_Z 0) (of_Z 0)) (of_Z 128)))
               (of_Z 128))
          (of_Z 0) (of_Z 255)
    = of_Z 0.
Proof.
  assert (Hwf : wf_bytes 1 1 [255; 100; 0; 7]) by solve_wf_bytes.
  assert (Hk : 0 ≤ 0 < 1 * 1) by lia.
  destruct (C3_tone_mapping 1 1 [255; 100; 0; 7]
              (of_Z 0) (of_Z 100) 0 255 100 0 7 Hwf Hk
              eq_refl eq_refl eq_refl eq_refl)
    as (_ & H0 & _ & _ & H3 & _ & Hclamp & _).
  split; [exact Hwf |]. split; [exact Hk |].
  do 4 (split; [reflexivity |]).
  split; [exact H0 |]. split; [exact H3 |].
  split.
  - destruct (Hclamp (add (mul (contrastFactorOf (of_Z 100))
                               (sub (add (of_Z 255) (of_Z 0)) (of_Z 128)))
                          (of_Z 128))) as (_ & _ & Hhi & _).
    apply Hhi. reflexivity.
  - destruct (Hclamp (add (mul (contrastFactorOf (of_Z 100))
                               (sub (add (of_Z 0) (of_Z 0)) (of_Z 128)))
                          (of_Z 128))) as (_ & Hlo & _).
    apply Hlo. reflexivity.
Defined.

(** C9. With brightness 0 and contrast 0 the contrast factor is exactly 1
    and the tone stage is the identity on each of R, G, B, so the gray
    stored for a pixel is the luma [0.299*R + 0.587*G + 0.114*B] of its
    original channels. *)
Theorem C9_neutral_tone (width height : Z) (bytes : list Z) (k r g b : Z) :
  wf_bytes width height bytes →
  0 ≤ k < width * height →
  at_index bytes (4 * k) = Some r →
  at_index bytes (4 * k + 1) = Some g →
  at_index bytes (4 * k + 2) = Some b →
  let out := toneLoop (of_Z 0) (contrastFactorOf (of_Z 0)) bytes in
  contrastFactorOf (of_Z 0) = of_Z 1
  ∧ toneChannel (of_Z 0) (of_Z 0) r = of_Z r
  ∧ toneChannel (of_Z 0) (of_Z 0) g = of_Z g
  ∧ toneChannel (of_Z 0) (of_Z 0) b = of_Z b
  ∧ ∀ c, 0 ≤ c < 3 →
      at_index out (4 * k + c)
      = Some (ToUint8Clamp
                (add (add (mul (decimal 299 1000) (of_Z r))
                          (mul (decimal 587 1000) (of_Z g)))
                     (mul (decimal 114 1000) (of_Z b)))).
Proof.
  intros Hwf Hk Hr Hg Hb. cbv zeta.
  pose proof (wf_bytes_byte _ _ _ _ _ Hwf Hr) as Hr'.
  pose proof (wf_bytes_byte _ _ _ _ _ Hwf Hg) as Hg'.
  pose proof (wf_bytes_byte _ _ _ _ _ Hwf Hb) as Hb'.
  split; [by vm_compute |].
  rewrite !toneChannel_neutral by done. repeat split.
  intros c Hc. destruct Hwf as (_ & _ & Hlen & _).
  rewrite (toneLoop_gray (of_Z 0) (of_Z 0) bytes (width * height) k r g b) by done.
  unfold grayByte, luma. by rewrite !toneChannel_neutral.
Qed.

Lemma C9_neutral_tone_witness :
  wf_bytes 1 1 [200; 100; 50; 7]
  ∧ 0 ≤ 0 < 1 * 1
  ∧ at_index [200; 100; 50; 7] (4 * 0) = Some 200
  ∧ at_index [200; 100; 50; 7] (4 * 0 + 1) = Some 100
  ∧ at_index [200; 100; 50; 7] (4 * 0 + 2) = Some 50
  ∧ at_index (toneLoop (of_Z 0) (contrastFactorOf (of_Z 0)) [200; 100; 50; 7]) 0
    = Some 124.
Proof.
  assert (Hwf : wf_bytes 1 1 [200; 100; 50; 7]) by solve_wf_bytes.
  assert (Hk : 0 ≤ 0 < 1 * 1) by lia.
  destruct (C9_neutral_tone 1 1 [200; 100; 50; 7] 0 200 100 50 Hwf Hk
              eq_refl eq_refl eq_refl)
    as (_ & _ & _ & _ & H).
  split; [exact Hwf |]. split; [exact Hk |].
  do 3 (split; [reflexivity |]).
  apply (H 0). lia.
Defined.

(** C1. For each of the five error-diffusion algorithms and every pixel
    [(x, y)], the engine adds the share [error * n / d] of the quantization
    error (evaluated left to right as [(error * n) / d], then rounded into
    the accumulator) at exactly the offsets [(dx, dy)] with weight [n/d] of
    that algorithm's row in the kernel table, and at no other cell.
    Floyd-Steinberg distributes (1,0):7/16, (-1,1):3/16, (0,1):5/16,
    (1,1):1/16; Atkinson distributes six weights of 1/8, so 2/8 of the
    error is discarded. *)
Theorem C1_kernel_weights (width height : Z) (k : DiffusionKernel) (x y : Z)
    (error : number) (acc : list number) :
  Z.of_nat (length acc) = width * height →
  let acc' := distributeError width height (kernelName k) x y error acc in
  acc' = applyKernel width height k x y error acc
  ∧ length acc' = length acc
  ∧ (∀ dx dy n d old,
       (dx, dy, n, d) ∈ kernelTable k →
       0 ≤ x + dx < width → 0 ≤ y + dy < height →
       at_index acc ((y + dy) * width + (x + dx)) = Some old →
       at_index acc' ((y + dy) * width + (x + dx))
       = Some (fround (add old (div (mul error (of_Z n)) (of_Z d)))))
  ∧ (∀ j, (∀ entry, entry ∈ kernelTable k → ¬ entryTouches width height x y entry j) →
          at_index acc' j = at_index acc j)
  ∧ kernelTable KFloydSteinberg
    = [(1, 0, 7, 16); (-1, 1, 3, 16); (0, 1, 5, 16); (1, 1, 1, 16)]
  ∧ kernelTable KAtkinson
    = [(1, 0, 1, 8); (2, 0, 1, 8); (-1, 1, 1, 8); (0, 1, 1, 8); (1, 1, 1, 8);
       (0, 2, 1, 8)]
  ∧ Qeq (weightSum KAtkinson) (Qmake 6 8)
  ∧ Qeq (Qminus (Qmake 1 1) (weightSum KAtkinson)) (Qmake 2 8).
Proof.
  intros Hlen. cbv zeta. rewrite distributeError_table. unfold applyKernel.
  split; [done |]. split; [apply foldl_applyEntry_length |].
  split; [| split; [| by repeat split]].
  - intros dx dy n d old Hin Hx Hy Hold.
    apply (foldl_applyEntry_self width height x y error (kernelTable k) acc dx dy n d);
      try done.
    destruct k; compute_done.
  - intros j Hj. by apply foldl_applyEntry_frame.
Qed.

Lemma C1_kernel_weights_witness :
  Z.of_nat (length [of_Z 100; of_Z 0; of_Z 0; of_Z 0]) = 2 * 2
  ∧ distributeError 2 2 FloydSteinberg 0 0 (of_Z 100)
                    [of_Z 100; of_Z 0; of_Z 0; of_Z 0]
    = [of_Z 100; decimal 4375 100; decimal 3125 100; decimal 625 100].
Proof.
  split; [reflexivity |].
  destruct (C1_kernel_weights 2 2 KFloydSteinberg 0 0 (of_Z 100)
              [of_Z 100; of_Z 0; of_Z 0; of_Z 0] eq_refl) as (H & _).
  exact H.
Defined.

(** C6. A kernel offset [(x+dx, y+dy)] outside [0,width) x [0,height) is
    silently dropped: [addError] writes no cell for it (so nothing wraps
    around to the opposite edge), and a call inside the image reads and
    writes only the cell [y*width + x], which lies inside the accumulator.
    A whole distribution step keeps the size of the accumulator and changes
    no cell other than the in-image targets of its kernel.  In particular a
    single white pixel at corner (0,0) of an otherwise black image comes out
    of Floyd-Steinberg unchanged. *)
Theorem C6_edge_handling (width height : Z) (k : DiffusionKernel) (x y : Z)
    (err : number) (acc : list number) :
  Z.of_nat (length acc) = width * height →
  (∀ x' y', ¬ (0 ≤ x' < width ∧ 0 ≤ y' < height) →
            addError width height x' y' err acc = acc)
  ∧ (∀ x' y', 0 ≤ x' < width → 0 ≤ y' < height →
              0 ≤ y' * width + x' < Z.of_nat (length acc)
              ∧ length (addError width height x' y' err acc) = length acc
              ∧ ∀ j, j ≠ y' * width + x' →
                     at_index (addError width height x' y' err acc) j = at_index acc j)
  ∧ length (distributeError width height (kernelName k) x y err acc) = length acc
  ∧ (∀ j, (∀ entry, entry ∈ kernelTable k → ¬ entryTouches width height x y entry j) →
          at_index (distributeError width height (kernelName k) x y err acc) j
          = at_index acc j)
  ∧ runOn 3 3 ([255; 255; 255; 255] ++ concat (replicate 8 [0; 0; 0; 255]))
          FloydSteinberg (of_Z 0) (of_Z 0)
    = Some (3, 3, [255; 255; 255; 255] ++ concat (replicate 8 [0; 0; 0; 255]))
  ∧ distributeError 3 2 FloydSteinberg 2 0 (of_Z 100) (replicate 6 (of_Z 0))
    = [of_Z 0; of_Z 0; of_Z 0; of_Z 0; decimal 1875 100; decimal 3125 100].
Proof.
  intros Hlen. split; [| split; [| split; [| split; [| split]]]].
  - intros x' y' Hout. by apply addError_outside.
  - intros x' y' Hx Hy. split; [| split].
    + rewrite Hlen. by apply cell_in_range.
    + apply addError_length.
    + intros j Hj. by apply addError_frame.
  - apply distributeError_length.
  - intros j Hj. rewrite distributeError_table. by apply foldl_applyEntry_frame.
  - by vm_compute.
  - by vm_compute.
Qed.

Lemma C6_edge_handling_witness :
  Z.of_nat (length (replicate 6 (of_Z 0))) = 3 * 2
  ∧ addError 3 2 3 0 (of_Z 100) (replicate 6 (of_Z 0)) = replicate 6 (of_Z 0)
  ∧ addError 3 2 (-1) 1 (of_Z 100) (replicate 6 (of_Z 0)) = replicate 6 (of_Z 0).
Proof.
  split; [reflexivity |].
  destruct (C6_edge_handling 3 2 KFloydSteinberg 2 0 (of_Z 100)
              (replicate 6 (of_Z 0)) eq_refl) as (H & _).
  split; apply H; lia.
Defined.

(** In [processImage], for a selector that is neither Grayscale-only nor
    Bayer 4x4, the returned colour channels of a pixel are those the
    error-diffusion loop leaves, starting from the tone-mapped bytes and the
    accumulator initialised from them. *)
Lemma processImage_diffusion (σ : heap) (src : ImageData) (bytes : list Z)
    (algorithm : DitherAlgorithm) (brightness contrast : number) (x y c : Z) :
  σ !! img_data src = Some bytes →
  wf_bytes (img_width src) (img_height src) bytes →
  algorithm ≠ Grayscale → algorithm ≠ Bayer4x4 →
  0 ≤ x < img_width src → 0 ≤ y < img_height src → 0 ≤ c < 3 →
  let width := img_width src in
  let height := img_height src in
  let toned := toneLoop brightness (contrastFactorOf contrast) bytes in
  let errorBuffer :=
    initErrorBuffer width height toned (replicate (Z.to_nat (width * height)) (of_Z 0)) in
  ∃ out σ',
    processImage src algorithm brightness contrast σ = Normal (out, σ')
    ∧ channel σ' out (y * width + x) c
      = Some (quantize (f32_get (reached width height algorithm (toned, errorBuffer) x y).2
                                (y * width + x))).
Proof.
  intros Hσ Hwf Hgray Hbayer Hx Hy Hc. cbv zeta.
  eexists _, _. split; [by apply processImage_run |].
  rewrite channel_result. unfold resultBytes. cbv zeta.
  rewrite !decide_False by done.
  replace (4 * (y * img_width src + x) + c)
    with ((y * img_width src + x) * 4 + c) by lia.
  destruct Hwf as (Hw & Hh & Hlen & Hall).
  by rewrite diffuseLoop_pixel; [| simpl; rewrite toneLoop_length | | |].
Qed.

(** C2. The error-diffusion loop visits the pixels in strict raster order:
    pixel [(x, y)] is the [(y*width + x)]-th one visited.  When it is
    reached the loop reads the accumulator value [old] of that pixel, writes
    [new = 0] if [old < 128] and [255] otherwise (so 128 gives 255) to R, G
    and B of the pixel, nothing later overwrites them, and the error
    [old - new] is what is distributed.  The accumulator holds unclamped
    numbers: it can exceed 255 before it is quantized. *)
Theorem C2_raster_quantize (width height : Z) (algorithm : DitherAlgorithm)
    (st : list Z * list number) (x y : Z) :
  Z.of_nat (length st.1) = 4 * (width * height) →
  0 ≤ x < width → 0 ≤ y < height →
  let before := reached width height algorithm st x y in
  let old := f32_get before.2 (y * width + x) in
  let new := if ltb old (of_Z 128) then of_Z 0 else of_Z 255 in
  diffuseLoop width height algorithm st
  = diffuseOver width height algorithm st (rasterOrder width height)
  ∧ rasterOrder width height !! Z.to_nat (y * width + x) = Some (x, y)
  ∧ (∀ c, 0 ≤ c < 3 →
       at_index (diffuseLoop width height algorithm st).1 ((y * width + x) * 4 + c)
       = Some (if ltb old (of_Z 128) then 0 else 255))
  ∧ (diffuseOver width height algorithm st
       (take (S (Z.to_nat (y * width + x))) (rasterOrder width height))).2
    = distributeError width height algorithm x y (sub old new) before.2
  ∧ ltb (of_Z 128) (of_Z 128) = false
  ∧ rasterOrder 3 2 = [(0, 0); (1, 0); (2, 0); (0, 1); (1, 1); (2, 1)]
  ∧ (reached 2 1 FloydSteinberg
       ([127; 127; 127; 255; 255; 255; 255; 255], [of_Z 127; of_Z 255]) 1 0).2
    = [of_Z 127; decimal 3105625 10000].
Proof.
  intros Hlen Hx Hy. cbv zeta.
  split; [apply diffuseLoop_over |].
  split; [by apply rasterOrder_lookup |].
  split; [| split; [| by vm_compute]].
  - intros c Hc. by rewrite diffuseLoop_pixel.
  - rewrite reached_next by done. apply diffuseBody_acc.
Qed.

Lemma C2_raster_quantize_witness :
  Z.of_nat (length [100; 100; 100; 255; 100; 100; 100; 255]) = 4 * (2 * 1)
  ∧ 0 ≤ 1 < 2
  ∧ 0 ≤ 0 < 1
  ∧ at_index (diffuseLoop 2 1 FloydSteinberg
                ([100; 100; 100; 255; 100; 100; 100; 255], [of_Z 100; of_Z 100])).1 4
    = Some 255.
Proof.
  assert (Hx : 0 ≤ 1 < 2) by lia.
  assert (Hy : 0 ≤ 0 < 1) by lia.
  split; [reflexivity |]. split; [exact Hx |]. split; [exact Hy |].
  destruct (C2_raster_quantize 2 1 FloydSteinberg
              ([100; 100; 100; 255; 100; 100; 100; 255], [of_Z 100; of_Z 100]) 1 0
              eq_refl Hx Hy) as (_ & _ & H & _).
  apply (H 0). lia.
Defined.



(** C5. For every algorithm except Grayscale-only, every output pixel has
    R = G = B equal to exactly 0 or exactly 255.  For Grayscale-only the
    call returns right after Stage 1 (the returned bytes are those of the
    tone loop, no dithering runs), R = G = B is a byte, and every value of
    [0, 255] occurs as an output. *)
Theorem C5_binary_output (σ : heap) (src : ImageData) (bytes : list Z)
    (brightness contrast : number) (x y : Z) :
  σ !! img_data src = Some bytes →
  wf_bytes (img_width src) (img_height src) bytes →
  0 ≤ x < img_width src → 0 ≤ y < img_height src →
  let k := y * img_width src + x in
  (∀ algorithm, algorithm ≠ Grayscale →
     ∃ out σ' v,
       processImage src algorithm brightness contrast σ = Normal (out, σ')
       ∧ (v = 0 ∨ v = 255)
       ∧ ∀ c, 0 ≤ c < 3 → channel σ' out k c = Some v)
  ∧ (∃ out σ' v,
       processImage src Grayscale brightness contrast σ = Normal (out, σ')
       ∧ bytesOf σ' out = toneLoop brightness (contrastFactorOf contrast) bytes
       ∧ 0 ≤ v ≤ 255
       ∧ ∀ c, 0 ≤ c < 3 → channel σ' out k c = Some v)
  ∧ (∀ v, 0 ≤ v ≤ 255 →
       runOn 1 1 [v; v; v; 255] Grayscale (of_Z 0) (of_Z 0)
       = Some (1, 1, [v; v; v; 255])).
Proof.
  intros Hσ Hwf Hx Hy k.
  pose proof (cell_in_range _ _ x y Hx Hy) as Hcell. fold k in Hcell.
  destruct (wf_bytes_pixel _ _ bytes x y 0 Hwf Hx Hy) as [r Hr]; [lia |].
  destruct (wf_bytes_pixel _ _ bytes x y 1 Hwf Hx Hy) as [g Hg]; [lia |].
  destruct (wf_bytes_pixel _ _ bytes x y 2 Hwf Hx Hy) as [b Hb]; [lia |].
  fold k in Hr, Hg, Hb. rewrite Z.add_0_r in Hr.
  pose proof Hwf as (Hw & Hh & Hlen & Hall).
  split; [| split].
  - intros algorithm Hgray.
    destruct (decide (algorithm = Bayer4x4)) as [-> | Hbayer].
    + eexists _, _, _. split; [by apply processImage_run |].
      split; [| intros c Hc; rewrite channel_result; unfold resultBytes; cbv zeta;
                rewrite decide_False by done; rewrite decide_True by done;
                replace (4 * k + c) with ((y * img_width src + x) * 4 + c)
                  by (unfold k; lia);
                rewrite bayerLoop_pixel;
                [reflexivity | by rewrite toneLoop_length | done | done | done]].
      destruct (gtb _ _); auto.
    + eexists _, _, _. split; [by apply processImage_run |].
      split; [| intros c Hc; rewrite channel_result; unfold resultBytes; cbv zeta;
                rewrite !decide_False by done;
                replace (4 * k + c) with ((y * img_width src + x) * 4 + c)
                  by (unfold k; lia);
                rewrite diffuseLoop_pixel;
                [reflexivity | by (simpl; rewrite toneLoop_length) | done | done | done]].
      apply quantize_binary.
  - exists (mkImageData (img_width src) (img_height src) (fresh (dom σ))).
    eexists _, (grayByte brightness contrast r g b).
    split; [by apply processImage_run |].
    split; [| split; [apply grayByte_range |]].
    + unfold bytesOf. simpl. rewrite lookup_insert_eq. simpl.
      unfold resultBytes. by rewrite decide_True.
    + intros c Hc. rewrite channel_result. unfold resultBytes.
      rewrite decide_True by done.
      by apply (toneLoop_gray _ _ _ (img_width src * img_height src)).
  - apply (forall_bytes (λ v, runOn 1 1 [v; v; v; 255] Grayscale (of_Z 0) (of_Z 0)
                              = Some (1, 1, [v; v; v; 255]))).
    vm_compute. reflexivity.
Qed.

Lemma C5_binary_output_witness :
  ({[ 1%positive := [10; 20; 30; 255; 200; 100; 50; 7] ]} : heap) !! 1%positive
  = Some [10; 20; 30; 255; 200; 100; 50; 7]
  ∧ wf_bytes 2 1 [10; 20; 30; 255; 200; 100; 50; 7]
  ∧ 0 ≤ 1 < 2
  ∧ 0 ≤ 0 < 1
  ∧ ∃ out σ' v,
      processImage (mkImageData 2 1 1%positive) Atkinson (of_Z 0) (of_Z 0)
                   {[ 1%positive := [10; 20; 30; 255; 200; 100; 50; 7] ]}
      = Normal (out, σ')
      ∧ (v = 0 ∨ v = 255)
      ∧ channel σ' out 1 0 = Some v.
Proof.
  assert (Hσ : ({[ 1%positive := [10; 20; 30; 255; 200; 100; 50; 7] ]} : heap)
               !! img_data (mkImageData 2 1 1%positive)
               = Some [10; 20; 30; 255; 200; 100; 50; 7]) by reflexivity.
  assert (Hwf : wf_bytes 2 1 [10; 20; 30; 255; 200; 100; 50; 7]) by solve_wf_bytes.
  assert (Hx : 0 ≤ 1 < img_width (mkImageData 2 1 1%positive)) by (simpl; lia).
  assert (Hy : 0 ≤ 0 < img_height (mkImageData 2 1 1%positive)) by (simpl; lia).
  split; [exact Hσ |]. split; [exact Hwf |]. split; [exact Hx |]. split; [exact Hy |].
  destruct (C5_binary_output {[ 1%positive := [10; 20; 30; 255; 200; 100; 50; 7] ]}
              (mkImageData 2 1 1%positive) [10; 20; 30; 255; 200; 100; 50; 7]
              (of_Z 0) (of_Z 0) 1 0 Hσ Hwf Hx Hy) as (H & _).
  destruct (H Atkinson ltac:(discriminate)) as (out & σ' & v & Hrun & Hv & Hch).
  exists out, σ', v. split; [exact Hrun |]. split; [exact Hv |].
  apply (Hch 0). lia.
Defined.

(** C10. For an algorithm selector that is none of the seven enum values
    the call still returns: the error-diffusion loop runs with no kernel
    branch taken, so no error reaches any neighbour, the accumulator never
    changes, and every output pixel has R = G = B equal to the tone-mapped
    gray thresholded at 128 (0 below 128, 255 otherwise). *)
Theorem C10_unknown_algorithm (σ : heap) (src : ImageData)
    (algorithm : DitherAlgorithm) (brightness contrast : number) (x y r g b : Z) :
  wf_image σ src →
  algorithm ∉ [Atkinson; FloydSteinberg; Stucki; Burkes; Sierra; Bayer4x4; Grayscale] →
  0 ≤ x < img_width src → 0 ≤ y < img_height src →
  let k := y * img_width src + x in
  channel σ src k 0 = Some r →
  channel σ src k 1 = Some g →
  channel σ src k 2 = Some b →
  let gray := of_Z (grayByte brightness contrast r g b) in
  (∀ x' y' err acc,
     distributeError (img_width src) (img_height src) algorithm x' y' err acc = acc)
  ∧ (∀ st pixels,
       (diffuseOver (img_width src) (img_height src) algorithm st pixels).2 = st.2)
  ∧ ∃ out σ' v,
      processImage src algorithm brightness contrast σ = Normal (out, σ')
      ∧ v = (if ltb gray (of_Z 128) then 0 else 255)
      ∧ (v = 0 ∨ v = 255)
      ∧ ∀ c, 0 ≤ c < 3 → channel σ' out k c = Some v.
Proof.
  intros (bytes & Hσ & Hwf) Hnot Hx Hy k Hr Hg Hb. cbv zeta.
  repeat (apply not_elem_of_cons in Hnot as [? Hnot]).
  assert (Hno : ∀ kn, algorithm ≠ kernelName kn) by (intros kn ->; by destruct kn).
  unfold channel in Hr, Hg, Hb. rewrite Hσ in Hr, Hg, Hb. simpl in Hr, Hg, Hb.
  rewrite Z.add_0_r in Hr.
  split; [intros; by apply distributeError_none |].
  split; [intros; by apply diffuseOver_acc_none |].
  eexists _, _, _. split; [by apply processImage_run |].
  split; [reflexivity |].
  split; [destruct (ltb _ _); auto |].
  intros c Hc. rewrite channel_result. unfold resultBytes. cbv zeta.
  rewrite !decide_False by done.
  replace (4 * k + c) with ((y * img_width src + x) * 4 + c) by (unfold k; lia).
  destruct Hwf as (Hw & Hh & Hlen & Hall).
  rewrite diffuseLoop_pixel; [| by (simpl; rewrite toneLoop_length) | done | done | done].
  unfold reached. rewrite diffuseOver_acc_none by done. simpl.
  by rewrite (accumulator_init _ _ _ _ _ _ _ r g b).
Qed.

Lemma C10_unknown_algorithm_witness :
  wf_image {[ 1%positive := [10; 20; 30; 255; 200; 100; 250; 7] ]}
           (mkImageData 2 1 1%positive)
  ∧ ("Threshold" ∉ [Atkinson; FloydSteinberg; Stucki; Burkes; Sierra; Bayer4x4;
                    Grayscale])
  ∧ 0 ≤ 1 < 2
  ∧ 0 ≤ 0 < 1
  ∧ channel {[ 1%positive := [10; 20; 30; 255; 200; 100; 250; 7] ]}
            (mkImageData 2 1 1%positive) (0 * 2 + 1) 0 = Some 200
  ∧ channel {[ 1%positive := [10; 20; 30; 255; 200; 100; 250; 7] ]}
            (mkImageData 2 1 1%positive) (0 * 2 + 1) 1 = Some 100
  ∧ channel {[ 1%positive := [10; 20; 30; 255; 200; 100; 250; 7] ]}
            (mkImageData 2 1 1%positive) (0 * 2 + 1) 2 = Some 250
  ∧ ∃ out σ',
      processImage (mkImageData 2 1 1%positive) "Threshold" (of_Z 0) (of_Z 0)
                   {[ 1%positive := [10; 20; 30; 255; 200; 100; 250; 7] ]}
      = Normal (out, σ')
      ∧ channel σ' out 1 0 = Some 255.
Proof.
  assert (Hwf : wf_image {[ 1%positive := [10; 20; 30; 255; 200; 100; 250; 7] ]}
                         (mkImageData 2 1 1%positive)).
  { eexists. split; [reflexivity |]. solve_wf_bytes. }
  assert (Hx : 0 ≤ 1 < img_width (mkImageData 2 1 1%positive)) by (simpl; lia).
  assert (Hy : 0 ≤ 0 < img_height (mkImageData 2 1 1%positive)) by (simpl; lia).
  assert (Hnot : "Threshold" ∉ [Atkinson; FloydSteinberg; Stucki; Burkes; Sierra;
                                Bayer4x4; Grayscale]) by compute_done.
  split; [exact Hwf |]. split; [exact Hnot |]. split; [exact Hx |]. split; [exact Hy |].
  do 3 (split; [reflexivity |]).
  destruct (C10_unknown_algorithm
              {[ 1%positive := [10; 20; 30; 255; 200; 100; 250; 7] ]}
              (mkImageData 2 1 1%positive) "Threshold" (of_Z 0) (of_Z 0)
              1 0 200 100 250 Hwf Hnot Hx Hy eq_refl eq_refl eq_refl)
    as (_ & _ & out & σ' & v & Hrun & Hv & _ & Hch).
  exists out, σ'. split; [exact Hrun |].
  assert (Hc : 0 ≤ 0 < 3) by lia.
  pose proof (Hch 0 Hc) as H0. rewrite Hv in H0. exact H0.
Defined.

(** C7. The call returns a new image whose width and height are those of
    the input and whose alpha channel equals the input's pixel for pixel.
    The returned image holds a freshly allocated array, distinct from the
    input's, and every array that existed before the call, the input's
    included, is left as it was. *)
Theorem C7_fresh_copy (σ : heap) (src : ImageData) (algorithm : DitherAlgorithm)
    (brightness contrast : number) :
  wf_image σ src →
  ∃ out σ',
    processImage src algorithm brightness contrast σ = Normal (out, σ')
    ∧ img_width out = img_width src
    ∧ img_height out = img_height src
    ∧ length (bytesOf σ' out) = length (bytesOf σ src)
    ∧ (∀ k, channel σ' out k 3 = channel σ src k 3)
    ∧ (img_data out ∉ dom σ)
    ∧ img_data out ≠ img_data src
    ∧ σ' !! img_data src = σ !! img_data src
    ∧ (∀ l, l ∈ dom σ → σ' !! l = σ !! l).
Proof.
  intros (bytes & Hσ & Hwf).
  pose proof (is_fresh (dom σ)) as Hfresh.
  assert (Hne : fresh (dom σ) ≠ img_data src).
  { intros Heq. apply Hfresh. rewrite Heq. by apply elem_of_dom_2 in Hσ. }
  eexists _, _. split; [by apply processImage_run |].
  split; [done |]. split; [done |].
  split; [| split; [| split; [| split; [| split]]]].
  - unfold bytesOf. simpl. rewrite lookup_insert_eq, Hσ. simpl.
    apply resultBytes_length.
  - intros k. rewrite channel_result, resultBytes_alpha.
    unfold channel. by rewrite Hσ.
  - done.
  - done.
  - by rewrite lookup_insert_ne.
  - intros l Hl. rewrite lookup_insert_ne; [done |]. by intros <-.
Qed.

Lemma C7_fresh_copy_witness :
  wf_image {[ 1%positive := [10; 20; 30; 255; 200; 100; 50; 7] ]}
           (mkImageData 2 1 1%positive)
  ∧ ∃ out σ',
      processImage (mkImageData 2 1 1%positive) Stucki (of_Z 0) (of_Z 0)
                   {[ 1%positive := [10; 20; 30; 255; 200; 100; 50; 7] ]}
      = Normal (out, σ')
      ∧ σ' !! 1%positive = Some [10; 20; 30; 255; 200; 100; 50; 7]
      ∧ img_data out ≠ 1%positive.
Proof.
  assert (Hwf : wf_image {[ 1%positive := [10; 20; 30; 255; 200; 100; 50; 7] ]}
                         (mkImageData 2 1 1%positive)).
  { eexists. split; [reflexivity |]. solve_wf_bytes. }
  split; [exact Hwf |].
  destruct (C7_fresh_copy {[ 1%positive := [10; 20; 30; 255; 200; 100; 50; 7] ]}
              (mkImageData 2 1 1%positive) Stucki (of_Z 0) (of_Z 0) Hwf)
    as (out & σ' & Hrun & _ & _ & _ & _ & _ & Hne & Hsrc & _).
  exists out, σ'. split; [exact Hrun |]. split; [exact Hsrc | exact Hne].
Defined.

Lemma add_nan_r (a : number) : add a NaN = NaN.
Proof. by destruct a. Qed.

Lemma luma_nan (r g b : number) :
  r = NaN ∨ g = NaN ∨ b = NaN → luma r g b = NaN.
Proof.
  unfold luma. intros [-> | [-> | ->]].
  - done.
  - change (mul (decimal 587 1000) NaN) with NaN. by rewrite add_nan_r.
  - change (mul (decimal 114 1000) NaN) with NaN. by rewrite add_nan_r.
Qed.

(** With an infinite contrast factor a channel is clamped to a boundary of
    the byte range, or is NaN. *)
Lemma tone_infinite (t : number) :
  let v := clamp (add (mul (S754_infinity false) t) (of_Z 128)) (of_Z 0) (of_Z 255) in
  v = of_Z 0 ∨ v = of_Z 255 ∨ v = NaN.
Proof.
  destruct t as [[] | [] | | [] m e]; vm_compute; auto.
Qed.

(** C8. The call is total on well-formed images: for every brightness and
    contrast (finite or not, so in particular for the contrast 259 that
    zeroes the denominator of the contrast formula) it returns normally
    with a well-formed image.  At contrast 259 the contrast factor is
    +infinity, every tone-mapped channel is 0, 255 or NaN, and a NaN gray is
    stored as 0: the byte written for each pixel is in [0, 255]. *)
Theorem C8_total (σ : heap) (src : ImageData) (algorithm : DitherAlgorithm)
    (brightness contrast : number) :
  wf_image σ src →
  (∃ out σ',
     processImage src algorithm brightness contrast σ = Normal (out, σ')
     ∧ wf_image σ' out)
  ∧ contrastFactorOf (of_Z 259) = S754_infinity false
  ∧ (∀ v, let t := toneChannel brightness (of_Z 259) v in
          t = of_Z 0 ∨ t = of_Z 255 ∨ t = NaN)
  ∧ (∀ r g b, r = NaN ∨ g = NaN ∨ b = NaN → ToUint8Clamp (luma r g b) = 0)
  ∧ (∀ r g b, 0 ≤ grayByte brightness (of_Z 259) r g b ≤ 255)
  ∧ runOn 3 1 [128; 128; 128; 255; 200; 200; 200; 255; 200; 100; 50; 255]
          Grayscale (of_Z 0) (of_Z 259)
    = Some (3, 1, [0; 0; 0; 255; 255; 255; 255; 255; 76; 76; 76; 255]).
Proof.
  intros (bytes & Hσ & Hwf).
  split; [| split; [by vm_compute | split; [| split; [| split; [| by vm_compute]]]]].
  - eexists _, _. split; [by apply processImage_run |].
    eexists. split; [simpl; apply lookup_insert_eq |]. simpl.
    by apply resultBytes_wf.
  - intros v. unfold toneChannel.
    change (contrastFactorOf (of_Z 259)) with (S754_infinity false).
    apply tone_infinite.
  - intros r g b Hnan. by rewrite luma_nan.
  - intros r g b. apply grayByte_range.
Qed.

Lemma C8_total_witness :
  wf_image {[ 1%positive := [128; 128; 128; 255; 200; 100; 50; 7] ]}
           (mkImageData 2 1 1%positive)
  ∧ ∃ out σ',
      processImage (mkImageData 2 1 1%positive) FloydSteinberg (of_Z 0) (of_Z 259)
                   {[ 1%positive := [128; 128; 128; 255; 200; 100; 50; 7] ]}
      = Normal (out, σ')
      ∧ wf_image σ' out.
Proof.
  assert (Hwf : wf_image {[ 1%positive := [128; 128; 128; 255; 200; 100; 50; 7] ]}
                         (mkImageData 2 1 1%positive)).
  { eexists. split; [reflexivity |]. solve_wf_bytes. }
  split; [exact Hwf |].
  destruct (C8_total {[ 1%positive := [128; 128; 128; 255; 200; 100; 50; 7] ]}
              (mkImageData 2 1 1%positive) FloydSteinberg (of_Z 0) (of_Z 259) Hwf)
    as (H & _).
  exact H.
Defined.

(** * Further properties of the engine *)

Lemma runOn_wf (width height : Z) (bytes : list Z) (alg : DitherAlgorithm)
    (b c : number) :
  wf_bytes width height bytes →
  runOn width height bytes alg b c
  = Some (width, height, resultBytes width height alg b c bytes).
Proof.
  intros Hwf. unfold runOn.
  rewrite (processImage_run {[ 1%positive := bytes ]}
             (mkImageData width height 1%positive) bytes); [| | done].
  - simpl. by rewrite lookup_insert_eq.
  - simpl. apply lookup_singleton_eq.
Qed.

Lemma algorithm_cases (alg : DitherAlgorithm) :
  (∃ k, alg = kernelName k) ∨ (∀ k, alg ≠ kernelName k).
Proof.
  destruct (decide (alg = FloydSteinberg)) as [-> | ?]; [left; by exists KFloydSteinberg |].
  destruct (decide (alg = Atkinson)) as [-> | ?]; [left; by exists KAtkinson |].
  destruct (decide (alg = Stucki)) as [-> | ?]; [left; by exists KStucki |].
  destruct (decide (alg = Burkes)) as [-> | ?]; [left; by exists KBurkes |].
  destruct (decide (alg = Sierra)) as [-> | ?]; [left; by exists KSierra |].
  right. intros k ->. by destruct k.
Qed.

Lemma at_index_None {A} (l : list A) (i : Z) :
  ¬ (0 ≤ i < Z.of_nat (length l)) → at_index l i = None.
Proof.
  intros Hi. unfold at_index. destruct (Z.ltb_spec i 0); [done |].
  apply lookup_ge_None. lia.
Qed.

(** Two buffers of [n] pixels are equal when their pixels are. *)
Lemma bytes_ext (n : Z) (l1 l2 : list Z) :
  Z.of_nat (length l1) = 4 * n → Z.of_nat (length l2) = 4 * n →
  (∀ k c, 0 ≤ k < n → 0 ≤ c < 4 → at_index l1 (4 * k + c) = at_index l2 (4 * k + c)) →
  l1 = l2.
Proof.
  intros H1 H2 Hpix. apply at_index_ext; [lia |]. intros i.
  destruct (decide (0 ≤ i < 4 * n)) as [Hi | Hi].
  - replace i with (4 * (i / 4) + i mod 4) by (symmetry; apply Z.div_mod; lia).
    pose proof (Z.mod_pos_bound i 4).
    apply Hpix; [| lia].
    split; [apply Z.div_pos; lia | apply Z.div_lt_upper_bound; lia].
  - rewrite !at_index_None by lia. done.
Qed.

(** Whatever the algorithm and the tone parameters, every pixel of the
    result has R = G = B; unless the algorithm is Grayscale-only it is pure
    black or pure white. *)
Lemma resultBytes_pixels width height alg b c bytes :
  wf_bytes width height bytes →
  grayPixels (width * height) (resultBytes width height alg b c bytes)
  ∧ (alg ≠ Grayscale →
     binaryPixels (width * height) (resultBytes width height alg b c bytes)).
Proof.
  intros Hwf. pose proof Hwf as (Hw & Hh & Hlen & Hall).
  assert (Hxy : ∀ k, 0 ≤ k < width * height →
            0 ≤ k mod width < width ∧ 0 ≤ k / width < height
            ∧ k = k / width * width + k mod width).
  { intros k Hk. pose proof (Z.mod_pos_bound k width Hw).
    pose proof (Z.div_mod k width ltac:(lia)).
    split; [done |]. split; [| lia].
    split; [apply Z.div_pos; lia | apply Z.div_lt_upper_bound; lia]. }
  assert (Hin : ∀ k, 0 ≤ k < width * height →
            ∃ r g bl, at_index bytes (4 * k) = Some r
                      ∧ at_index bytes (4 * k + 1) = Some g
                      ∧ at_index bytes (4 * k + 2) = Some bl).
  { intros k Hk.
    destruct (at_index_Some (4 * k) bytes) as [r Hr]; [lia |].
    destruct (at_index_Some (4 * k + 1) bytes) as [g Hg]; [lia |].
    destruct (at_index_Some (4 * k + 2) bytes) as [bl Hb]; [lia |].
    by exists r, g, bl. }
  assert (Hbin : alg ≠ Grayscale →
            binaryPixels (width * height) (resultBytes width height alg b c bytes)).
  { intros Hgray k Hk. destruct (Hxy k Hk) as (Hx & Hy & Heq).
    set (x := k mod width) in *. set (y := k / width) in *.
    assert (Hidx : ∀ c', 4 * k + c' = (y * width + x) * 4 + c') by (intros; lia).
    unfold binaryPixels.
    replace (at_index (resultBytes width height alg b c bytes) (4 * k))
      with (at_index (resultBytes width height alg b c bytes) (4 * k + 0))
      by (by rewrite Z.add_0_r).
    rewrite !Hidx.
    unfold resultBytes. cbv zeta. rewrite decide_False by done.
    destruct (decide (alg = Bayer4x4)).
    - eexists. split; [| split; [| split]].
      2-4: apply bayerLoop_pixel; rewrite ?toneLoop_length; (done || lia).
      destruct (gtb _ _); auto.
    - eexists. split; [| split; [| split]].
      2-4: apply diffuseLoop_pixel; simpl; rewrite ?toneLoop_length; (done || lia).
      apply quantize_binary. }
  split; [| done].
  destruct (decide (alg = Grayscale)) as [-> | Hgray].
  - intros k Hk. destruct (Hin k Hk) as (r & g & bl & Hr & Hg & Hb).
    exists (grayByte b c r g bl). unfold resultBytes. rewrite decide_True by done.
    rewrite <- (Z.add_0_r (4 * k)) at 1.
    by rewrite !(toneLoop_gray b c bytes (width * height) k r g bl) by (done || lia).
  - intros k Hk. destruct (Hbin Hgray k Hk) as (v & _ & H). by exists v.
Qed.

(** With neutral tone parameters the tone loop leaves a gray image as it
    is. *)
Lemma toneLoop_neutral_gray width height bytes :
  wf_bytes width height bytes →
  grayPixels (width * height) bytes →
  toneLoop (of_Z 0) (contrastFactorOf (of_Z 0)) bytes = bytes.
Proof.
  intros Hwf Hgray. pose proof Hwf as (Hw & Hh & Hlen & Hall).
  apply (bytes_ext (width * height)); [by rewrite toneLoop_length | done |].
  intros k c Hk Hc. destruct (Hgray k Hk) as (v & H0 & H1 & H2).
  destruct (decide (c = 3)) as [-> | Hc3]; [apply toneLoop_alpha |].
  rewrite (toneLoop_gray _ _ _ (width * height) k v v v) by (done || lia).
  rewrite grayByte_neutral_gray by (by eapply wf_bytes_byte).
  assert (c = 0 ∨ c = 1 ∨ c = 2) as [-> | [-> | ->]] by lia;
    by rewrite ?Z.add_0_r.
Qed.

(** The sixteen thresholds of the ordered dither. *)
Lemma bayerThreshold_cases (P : number → Prop) `{!∀ t, Decision (P t)} :
  forallb (λ r, forallb (λ c, bool_decide (P (bayerThreshold c r))) (seqZ 0 4))
          (seqZ 0 4) = true →
  ∀ x y, P (bayerThreshold x y).
Proof.
  intros Hall x y.
  assert (bayerThreshold x y = bayerThreshold (x mod 4) (y mod 4)) as ->.
  { unfold bayerThreshold. by rewrite !Zmod_mod. }
  rewrite forallb_forall in Hall.
  pose proof (Z.mod_pos_bound x 4). pose proof (Z.mod_pos_bound y 4).
  specialize (Hall (y mod 4)). rewrite forallb_forall in Hall.
  eapply bool_decide_eq_true_1, Hall; apply list_elem_of_In, elem_of_seqZ; lia.
Qed.

Lemma bayer_black_white (x y : Z) :
  gtb (of_Z 0) (bayerThreshold x y) = false
  ∧ gtb (of_Z 255) (bayerThreshold x y) = true.
Proof.
  revert x y.
  apply (bayerThreshold_cases
           (λ t, gtb (of_Z 0) t = false ∧ gtb (of_Z 255) t = true)).
  vm_compute. reflexivity.
Qed.

(** A zero error leaves an accumulator of 0s and 255s as it is. *)
Lemma addError_zero width height x y acc :
  binaryCells acc → addError width height x y (S754_zero false) acc = acc.
Proof.
  intros Hbin. unfold addError, f32_set, f32_get. case_match; [done |].
  destruct (at_index acc (y * width + x)) as [old |] eqn:Hold.
  - assert (fround (add old (S754_zero false)) = old) as ->.
    { unfold at_index in Hold. destruct (y * width + x <? 0); [done |].
      unfold binaryCells in Hbin. rewrite Forall_lookup in Hbin.
      destruct (Hbin _ _ Hold) as [-> | ->]; by vm_compute. }
    unfold set_index, at_index in *. destruct (y * width + x <? 0); [done |].
    by apply list_insert_id.
  - unfold set_index, at_index in *. destruct (y * width + x <? 0); [done |].
    apply list_insert_ge. by apply lookup_ge_None.
Qed.

Lemma distributeError_zero width height alg x y acc :
  binaryCells acc →
  distributeError width height alg x y (S754_zero false) acc = acc.
Proof.
  intros Hbin. destruct (algorithm_cases alg) as [[k ->] | Hno].
  - rewrite distributeError_table. unfold applyKernel.
    assert (Hshare : Forall (λ e, share (S754_zero false) e.1.2 e.2 = S754_zero false)
                            (kernelTable k)) by (destruct k; compute_done).
    induction (kernelTable k) as [| [[[dx dy] n] d] tbl IH]; [done |].
    apply Forall_cons in Hshare as [Hs Hshare]. simpl in *.
    rewrite Hs, addError_zero by done. by apply IH.
  - by apply distributeError_none.
Qed.

Lemma diffuseBody_binary width height alg st x y :
  binaryCells st.2 →
  0 ≤ y * width + x < Z.of_nat (length st.2) →
  (diffuseBody width height alg st x y).2 = st.2.
Proof.
  intros Hbin Hidx. rewrite diffuseBody_acc.
  destruct (at_index_Some _ _ Hidx) as [old Hold].
  unfold f32_get. rewrite Hold.
  assert (sub old (if ltb old (of_Z 128) then of_Z 0 else of_Z 255)
          = S754_zero false) as ->.
  { unfold at_index in Hold. destruct (y * width + x <? 0); [done |].
    unfold binaryCells in Hbin. rewrite Forall_lookup in Hbin.
    destruct (Hbin _ _ Hold) as [-> | ->]; by vm_compute. }
  by apply distributeError_zero.
Qed.

Lemma diffuseOver_binary width height alg st pixels :
  binaryCells st.2 →
  Z.of_nat (length st.2) = width * height →
  (∀ p, p ∈ pixels → 0 ≤ p.1 < width ∧ 0 ≤ p.2 < height) →
  (diffuseOver width height alg st pixels).2 = st.2.
Proof.
  unfold diffuseOver. revert st.
  induction pixels as [| p l IH]; intros st Hbin Hlen Hin; [done |].
  assert (Hstep : (diffuseBody width height alg st p.1 p.2).2 = st.2).
  { apply diffuseBody_binary; [done |]. rewrite Hlen.
    destruct (Hin p) as [Hx Hy]; [left |]. by apply cell_in_range. }
  simpl. rewrite IH; rewrite ?Hstep; try done.
  intros p' Hp'. apply Hin. by right.
Qed.

(** The accumulator built from a black-and-white image. *)
Lemma initErrorBuffer_binary width height bytes :
  wf_bytes width height bytes →
  binaryPixels (width * height) bytes →
  let acc := initErrorBuffer width height bytes
               (replicate (Z.to_nat (width * height)) (of_Z 0)) in
  binaryCells acc
  ∧ ∀ k v, 0 ≤ k < width * height → at_index bytes (4 * k) = Some v →
           f32_get acc k = of_Z v.
Proof.
  intros (Hw & Hh & Hlen & Hall) Hbin acc.
  assert (Hcell : ∀ k v, 0 ≤ k < width * height → at_index bytes (4 * k) = Some v →
            at_index acc k = Some (of_Z v)).
  { intros k v Hk Hv. unfold acc.
    rewrite initErrorBuffer_lookup; [| rewrite length_replicate; nia | done].
    replace (k * 4) with (4 * k) by lia. rewrite (u8_get_Some _ _ _ Hv).
    destruct (Hbin k Hk) as (v' & Hv' & H0 & _).
    assert (v = v') as -> by congruence. by destruct Hv' as [-> | ->]. }
  split.
  - unfold binaryCells. apply Forall_lookup. intros i a Hi.
    assert (Hlt : 0 ≤ Z.of_nat i < width * height).
    { apply lookup_lt_Some in Hi. unfold acc in Hi.
      rewrite initErrorBuffer_length, length_replicate in Hi. nia. }
    destruct (Hbin _ Hlt) as (v & Hv & H0 & _).
    pose proof (Hcell _ _ Hlt H0) as Hc. unfold at_index in Hc.
    destruct (Z.of_nat i <? 0) eqn:E; [lia |]. rewrite Nat2Z.id in Hc.
    assert (a = of_Z v) as -> by congruence.
    destruct Hv as [-> | ->]; auto.
  - intros k v Hk Hv. unfold f32_get. by rewrite (Hcell k v).
Qed.

Lemma resultBytes_binary_fixed width height alg bytes :
  wf_bytes width height bytes →
  binaryPixels (width * height) bytes →
  resultBytes width height alg (of_Z 0) (of_Z 0) bytes = bytes.
Proof.
  intros Hwf Hbin. pose proof Hwf as (Hw & Hh & Hlen & Hall).
  assert (Hgray : grayPixels (width * height) bytes).
  { intros k Hk. destruct (Hbin k Hk) as (v & _ & H). by exists v. }
  pose proof (toneLoop_neutral_gray _ _ _ Hwf Hgray) as Htone.
  unfold resultBytes. cbv zeta. rewrite Htone.
  destruct (decide (alg = Grayscale)); [done |].
  destruct (initErrorBuffer_binary _ _ _ Hwf Hbin) as [Hcells Hacc].
  set (acc := initErrorBuffer _ _ _ _) in *.
  assert (Hxy : ∀ k, 0 ≤ k < width * height →
            0 ≤ k mod width < width ∧ 0 ≤ k / width < height
            ∧ k = k / width * width + k mod width).
  { intros k Hk. pose proof (Z.mod_pos_bound k width Hw).
    pose proof (Z.div_mod k width ltac:(lia)).
    split; [done |]. split; [| lia].
    split; [apply Z.div_pos; lia | apply Z.div_lt_upper_bound; lia]. }
  destruct (decide (alg = Bayer4x4)).
  - apply (bytes_ext (width * height)); [by rewrite bayerLoop_length | done |].
    intros k c Hk Hc.
    destruct (decide (c = 3)) as [-> | Hc3]; [apply bayerLoop_alpha |].
    destruct (Hxy k Hk) as (Hx & Hy & Heq).
    destruct (Hbin k Hk) as (v & Hv & H0 & H1 & H2).
    replace (4 * k + c) with ((k / width * width + k mod width) * 4 + c) at 1 by lia.
    rewrite bayerLoop_pixel by (done || lia).
    rewrite <- Heq, (Hacc k v) by done.
    destruct (bayer_black_white (k mod width) (k / width)) as [Hb Hw'].
    assert (c = 0 ∨ c = 1 ∨ c = 2) as Hc' by lia.
    destruct Hv as [-> | ->]; rewrite ?Hb, ?Hw';
      destruct Hc' as [-> | [-> | ->]]; by rewrite ?Z.add_0_r.
  - apply (bytes_ext (width * height));
      [by rewrite diffuseLoop_data_length | done |].
    intros k c Hk Hc.
    destruct (decide (c = 3)) as [-> | Hc3]; [apply diffuseLoop_alpha |].
    destruct (Hxy k Hk) as (Hx & Hy & Heq).
    destruct (Hbin k Hk) as (v & Hv & H0 & H1 & H2).
    replace (4 * k + c) with ((k / width * width + k mod width) * 4 + c) at 1 by lia.
    rewrite diffuseLoop_pixel by (done || lia).
    unfold reached. rewrite diffuseOver_binary; simpl.
    + rewrite <- Heq, (Hacc k v) by done.
      assert (c = 0 ∨ c = 1 ∨ c = 2) as Hc' by lia.
      destruct Hv as [-> | ->]; destruct Hc' as [-> | [-> | ->]];
        by rewrite ?Z.add_0_r.
    + done.
    + unfold acc. rewrite initErrorBuffer_length, length_replicate. nia.
    + intros [x' y'] (i & Hp%list_elem_of_lookup_2 & _)%elem_of_take.
      by apply rasterOrder_elem_of in Hp.
Qed.

(** X1. With brightness 0 and contrast 0, an image whose pixels are all pure
    black or pure white (whatever their alpha) comes back unchanged from
    [processImage], for every algorithm selector: an already binary image
    is a fixed point of every dithering mode. *)
Theorem X1_binary_fixed_point (width height : Z) (bytes : list Z)
    (alg : DitherAlgorithm) :
  wf_bytes width height bytes →
  binaryPixels (width * height) bytes →
  runOn width height bytes alg (of_Z 0) (of_Z 0) = Some (width, height, bytes).
Proof.
  intros Hwf Hbin. rewrite runOn_wf by done.
  by rewrite resultBytes_binary_fixed.
Qed.

(** X2. Dithering is idempotent: the output of any mode other than
    Grayscale-only, at any brightness and contrast, is returned unchanged
    when it is processed again with neutral tone parameters, under any
    algorithm selector. *)
Theorem X2_dither_idempotent (width height : Z) (bytes : list Z)
    (alg1 alg2 : DitherAlgorithm) (b c : number) :
  wf_bytes width height bytes →
  alg1 ≠ Grayscale →
  ∃ out,
    runOn width height bytes alg1 b c = Some (width, height, out)
    ∧ runOn width height out alg2 (of_Z 0) (of_Z 0) = Some (width, height, out).
Proof.
  intros Hwf Hgray. eexists. split; [by apply runOn_wf |].
  rewrite runOn_wf by (by apply resultBytes_wf).
  rewrite resultBytes_binary_fixed; [done | by apply resultBytes_wf |].
  by apply resultBytes_pixels.
Qed.

(** X3. Every output of [processImage] has R = G = B in every pixel, and
    Grayscale-only with neutral tone parameters returns any such image
    unchanged; so a Grayscale-only pass after any other pass changes
    nothing. *)
Theorem X3_grayscale_idempotent (width height : Z) (bytes : list Z)
    (alg : DitherAlgorithm) (b c : number) :
  wf_bytes width height bytes →
  (grayPixels (width * height) bytes →
   runOn width height bytes Grayscale (of_Z 0) (of_Z 0) = Some (width, height, bytes))
  ∧ ∃ out,
      runOn width height bytes alg b c = Some (width, height, out)
      ∧ grayPixels (width * height) out
      ∧ runOn width height out Grayscale (of_Z 0) (of_Z 0) = Some (width, height, out).
Proof.
  intros Hwf.
  assert (Hfix : ∀ l, wf_bytes width height l → grayPixels (width * height) l →
            runOn width height l Grayscale (of_Z 0) (of_Z 0) = Some (width, height, l)).
  { intros l Hl Hg. rewrite runOn_wf by done. unfold resultBytes.
    rewrite decide_True by done. by rewrite (toneLoop_neutral_gray width height). }
  split; [by apply Hfix |].
  eexists. split; [by apply runOn_wf |].
  pose proof (resultBytes_pixels width height alg b c bytes Hwf) as [Hg _].
  split; [done |]. apply Hfix; [by apply resultBytes_wf | done].
Qed.

Lemma X1_binary_fixed_point_witness :
  wf_bytes 2 1 [255; 255; 255; 10; 0; 0; 0; 200]
  ∧ binaryPixels (2 * 1) [255; 255; 255; 10; 0; 0; 0; 200]
  ∧ runOn 2 1 [255; 255; 255; 10; 0; 0; 0; 200] Stucki (of_Z 0) (of_Z 0)
    = Some (2, 1, [255; 255; 255; 10; 0; 0; 0; 200]).
Proof.
  assert (Hwf : wf_bytes 2 1 [255; 255; 255; 10; 0; 0; 0; 200]) by solve_wf_bytes.
  assert (Hbin : binaryPixels (2 * 1) [255; 255; 255; 10; 0; 0; 0; 200]).
  { intros k Hk. assert (k = 0 ∨ k = 1) as [-> | ->] by lia.
    - exists 255. split; [by right | by repeat split].
    - exists 0. split; [by left | by repeat split]. }
  split; [exact Hwf |]. split; [exact Hbin |].
  exact (X1_binary_fixed_point 2 1 [255; 255; 255; 10; 0; 0; 0; 200] Stucki Hwf Hbin).
Defined.

Lemma X2_dither_idempotent_witness :
  wf_bytes 2 1 [10; 20; 30; 255; 200; 100; 50; 7]
  ∧ Atkinson ≠ Grayscale
  ∧ ∃ out,
      runOn 2 1 [10; 20; 30; 255; 200; 100; 50; 7] Atkinson (of_Z 10) (of_Z 50)
      = Some (2, 1, out)
      ∧ runOn 2 1 out Bayer4x4 (of_Z 0) (of_Z 0) = Some (2, 1, out).
Proof.
  assert (Hwf : wf_bytes 2 1 [10; 20; 30; 255; 200; 100; 50; 7]) by solve_wf_bytes.
  assert (Hne : Atkinson ≠ Grayscale) by discriminate.
  split; [exact Hwf |]. split; [exact Hne |].
  exact (X2_dither_idempotent 2 1 [10; 20; 30; 255; 200; 100; 50; 7]
           Atkinson Bayer4x4 (of_Z 10) (of_Z 50) Hwf Hne).
Defined.

Lemma X3_grayscale_idempotent_witness :
  wf_bytes 2 1 [10; 20; 30; 255; 200; 100; 50; 7]
  ∧ ∃ out,
      runOn 2 1 [10; 20; 30; 255; 200; 100; 50; 7] Grayscale (of_Z 10) (of_Z 50)
      = Some (2, 1, out)
      ∧ runOn 2 1 out Grayscale (of_Z 0) (of_Z 0) = Some (2, 1, out).
Proof.
  assert (Hwf : wf_bytes 2 1 [10; 20; 30; 255; 200; 100; 50; 7]) by solve_wf_bytes.
  split; [exact Hwf |].
  destruct (X3_grayscale_idempotent 2 1 [10; 20; 30; 255; 200; 100; 50; 7]
              Grayscale (of_Z 10) (of_Z 50) Hwf) as (_ & out & Hrun & _ & Hagain).
  exists out. split; [exact Hrun | exact Hagain].
Defined.

(** Error only moves forward: the kernels have no entry that points at the
    pixel itself or at an earlier pixel in raster order. *)
Lemma kernelTable_forward (k : DiffusionKernel) :
  Forall (λ e, 1 ≤ e.1.1.2 ∨ (e.1.1.2 = 0 ∧ 1 ≤ e.1.1.1)) (kernelTable k).
Proof. destruct k; compute_done. Qed.

Lemma distributeError_forward width height alg x y err acc j :
  0 ≤ x < width → j ≤ y * width + x →
  at_index (distributeError width height alg x y err acc) j = at_index acc j.
Proof.
  intros Hx Hj. destruct (algorithm_cases alg) as [[k ->] | Hno].
  - rewrite distributeError_table. apply foldl_applyEntry_frame.
    intros [[[dx dy] n] d] Hin (Hx' & Hy' & Heq).
    pose proof (kernelTable_forward k) as Hfw. rewrite Forall_forall in Hfw.
    specialize (Hfw _ Hin). simpl in Hfw. nia.
  - by rewrite distributeError_none.
Qed.

(** Pixels that come after [(x, y)] in raster order have larger cells. *)
Lemma rasterOrder_later (width height x y : Z) (p : Z * Z) :
  0 < width → 0 ≤ x < width → 0 ≤ y < height →
  p ∈ drop (S (Z.to_nat (y * width + x))) (rasterOrder width height) →
  0 ≤ p.1 < width ∧ y * width + x < p.2 * width + p.1.
Proof.
  intros Hw Hx Hy [i Hi]%list_elem_of_lookup. rewrite lookup_drop in Hi.
  rewrite <- (Z2Nat.id height) in Hi by lia.
  rewrite rasterOrder_flat in Hi by done.
  rewrite list_lookup_fmap in Hi.
  destruct (seqZ 0 _ !! _) as [j |] eqn:Hj; [| done].
  apply lookup_seqZ in Hj as [-> _].
  remember (0 + Z.of_nat (S (Z.to_nat (y * width + x)) + i)) as j eqn:Ej.
  assert (y * width + x < j) by nia.
  simpl in Hi. injection Hi as <-. simpl.
  pose proof (Z.mod_pos_bound j width Hw) as Hmod.
  pose proof (Z.div_mod j width ltac:(lia)) as Hdiv.
  split; [done |]. rewrite (Z.mul_comm (j / width)). lia.
Qed.

(** X4. When the error-diffusion loop ends, the colour of every pixel is
    the quantized value of that pixel's own accumulator cell as the loop
    leaves it: once a pixel has been visited, no later step touches its
    cell (error only moves forward in raster order). *)
Theorem X4_diffusion_postcondition (width height : Z) (alg : DitherAlgorithm)
    (st : list Z * list number) (x y c : Z) :
  Z.of_nat (length st.1) = 4 * (width * height) →
  0 ≤ x < width → 0 ≤ y < height → 0 ≤ c < 3 →
  let final := diffuseLoop width height alg st in
  at_index final.2 (y * width + x)
  = at_index (reached width height alg st x y).2 (y * width + x)
  ∧ at_index final.1 ((y * width + x) * 4 + c)
    = Some (if ltb (f32_get final.2 (y * width + x)) (of_Z 128) then 0 else 255).
Proof.
  intros Hlen Hx Hy Hc. cbv zeta.
  assert (Hacc : at_index (diffuseLoop width height alg st).2 (y * width + x)
                 = at_index (reached width height alg st x y).2 (y * width + x)).
  { rewrite diffuseLoop_over.
    destruct (rasterOrder_split width height x y Hx Hy) as (Hsplit & _ & _).
    rewrite Hsplit at 1. rewrite diffuseOver_app.
    fold (reached width height alg st x y).
    apply (foldl_frame (λ st p, diffuseBody width height alg st p.1 p.2)
             (λ st j, at_index st.2 j)
             (λ p j, ¬ (0 ≤ p.1 < width ∧ j ≤ p.2 * width + p.1))).
    - intros s p j Hp. rewrite diffuseBody_acc.
      apply distributeError_forward; destruct (decide (0 ≤ p.1 < width)); try lia;
        destruct (decide (j ≤ p.2 * width + p.1)); try lia; tauto.
    - intros p Hp Hno. apply Hno. apply elem_of_cons in Hp as [-> | Hp].
      + simpl. lia.
      + apply rasterOrder_later in Hp; lia. }
  split; [done |].
  rewrite diffuseLoop_pixel by done. unfold f32_get. by rewrite Hacc.
Qed.

Lemma X4_diffusion_postcondition_witness :
  Z.of_nat (length [100; 100; 100; 255; 100; 100; 100; 255]) = 4 * (2 * 1)
  ∧ 0 ≤ 1 < 2 ∧ 0 ≤ 0 < 1 ∧ 0 ≤ 0 < 3
  ∧ f32_get (diffuseLoop 2 1 FloydSteinberg
               ([100; 100; 100; 255; 100; 100; 100; 255], [of_Z 100; of_Z 100])).2 1
    = decimal 14375 100
  ∧ at_index (diffuseLoop 2 1 FloydSteinberg
                ([100; 100; 100; 255; 100; 100; 100; 255], [of_Z 100; of_Z 100])).1 4
    = Some 255.
Proof.
  assert (Hx : 0 ≤ 1 < 2) by lia.
  assert (Hy : 0 ≤ 0 < 1) by lia.
  assert (Hc : 0 ≤ 0 < 3) by lia.
  split; [reflexivity |]. split; [exact Hx |]. split; [exact Hy |].
  split; [exact Hc |]. split; [reflexivity |].
  destruct (X4_diffusion_postcondition 2 1 FloydSteinberg
              ([100; 100; 100; 255; 100; 100; 100; 255], [of_Z 100; of_Z 100]) 1 0 0
              eq_refl Hx Hy Hc) as (_ & H).
  exact H.
Defined.

(** X5. [getPixel] reads 0 outside the image and the accumulator cell
    inside it; after [addError] at a pixel inside the image it reads the old
    value plus the error, rounded to binary32, at that pixel and the old
    value at every other pixel. *)
Theorem X5_getPixel_addError (width height : Z) (acc : list number)
    (x y : Z) (err old : number) :
  0 ≤ x < width → 0 ≤ y < height →
  at_index acc (y * width + x) = Some old →
  let acc' := addError width height x y err acc in
  getPixel width height acc x y = old
  ∧ getPixel width height acc' x y = fround (add old err)
  ∧ (∀ x' y', 0 ≤ x' < width → (x', y') ≠ (x, y) →
       getPixel width height acc' x' y' = getPixel width height acc x' y')
  ∧ (∀ x' y', ¬ (0 ≤ x' < width ∧ 0 ≤ y' < height) →
       getPixel width height acc' x' y' = of_Z 0
       ∧ addError width height x' y' err acc = acc).
Proof.
  intros Hx Hy Hold. cbv zeta.
  pose proof (proj2 (outOfBounds_false width height x y) (conj Hx Hy)) as Hin.
  unfold getPixel at 1 2. rewrite Hin. unfold f32_get.
  rewrite Hold, (addError_self width height x y err acc old) by done.
  split; [done |]. split; [done |]. split.
  - intros x' y' Hx' Hne. unfold getPixel. case_match; [done |].
    unfold f32_get. rewrite addError_frame; [done |].
    intros Heq. apply cell_inj in Heq as [-> ->]; [done | lia | lia].
  - intros x' y' Hout. split.
    + unfold getPixel. by rewrite (proj2 (outOfBounds_true width height x' y')).
    + by apply addError_outside.
Qed.

Lemma X5_getPixel_addError_witness :
  0 ≤ 1 < 2 ∧ 0 ≤ 0 < 2
  ∧ at_index [of_Z 1; of_Z 2; of_Z 3; of_Z 4] (0 * 2 + 1) = Some (of_Z 2)
  ∧ getPixel 2 2 (addError 2 2 1 0 (decimal 1 10) [of_Z 1; of_Z 2; of_Z 3; of_Z 4]) 1 0
    = fround (add (of_Z 2) (decimal 1 10))
  ∧ getPixel 2 2 (addError 2 2 1 0 (decimal 1 10) [of_Z 1; of_Z 2; of_Z 3; of_Z 4]) 2 0
    = of_Z 0.
Proof.
  assert (Hx : 0 ≤ 1 < 2) by lia.
  assert (Hy : 0 ≤ 0 < 2) by lia.
  split; [exact Hx |]. split; [exact Hy |]. split; [reflexivity |].
  destruct (X5_getPixel_addError 2 2 [of_Z 1; of_Z 2; of_Z 3; of_Z 4] 1 0
              (decimal 1 10) (of_Z 2) Hx Hy eq_refl) as (_ & H1 & _ & H3).
  split; [exact H1 |]. apply (H3 2 0). lia.
Defined.

(** X6. [clamp(val, 0, 255)] is NaN exactly when [val] is NaN; otherwise it
    is [val] itself, 0 or 255, and lies between 0 and 255. *)
Theorem X6_clamp_range (val : number) :
  let r := clamp val (of_Z 0) (of_Z 255) in
  (r = NaN ↔ val = NaN)
  ∧ (val ≠ NaN →
     (r = val ∨ r = of_Z 0 ∨ r = of_Z 255)
     ∧ SFleb (of_Z 0) r = true ∧ SFleb r (of_Z 255) = true).
Proof.
  cbv zeta. destruct val as [s | s | | s m e].
  - assert (clamp (S754_zero s) (of_Z 0) (of_Z 255) = of_Z 0) as ->
      by (by destruct s).
    split; [split; discriminate |]. intros _.
    split; [by right; left | by split].
  - destruct s.
    + change (clamp (S754_infinity true) (of_Z 0) (of_Z 255)) with (of_Z 0).
      split; [split; discriminate |]. intros _.
      split; [by right; left | by split].
    + change (clamp (S754_infinity false) (of_Z 0) (of_Z 255)) with (of_Z 255).
      split; [split; discriminate |]. intros _.
      split; [by right; right | by split].
  - split; [done |]. by intros [].
  - destruct s.
    + change (clamp (S754_finite true m e) (of_Z 0) (of_Z 255)) with (of_Z 0).
      split; [split; discriminate |]. intros _.
      split; [by right; left | by split].
    + unfold clamp.
      change (Math_max (S754_finite false m e) (of_Z 0)) with (S754_finite false m e).
      unfold Math_min, SFleb.
      destruct (SFcompare (S754_finite false m e) (of_Z 255)) as [[] |] eqn:Hcmp.
      * split; [split; discriminate |]. intros _. split; [by left |].
        by rewrite Hcmp.
      * split; [split; discriminate |]. intros _. split; [by left |].
        by rewrite Hcmp.
      * split; [split; discriminate |]. intros _.
        split; [by right; right | by split].
      * exfalso. revert Hcmp.
        change (of_Z 255) with (S754_finite false 8972014882652160 (-45)).
        unfold SFcompare. discriminate.
Qed.

(** At each of the sixteen thresholds, a gray level that comes out white
    stays white when it is raised by one. *)
Lemma bayer_step (x y g : Z) :
  0 ≤ g < 255 →
  gtb (of_Z g) (bayerThreshold x y) = true →
  gtb (of_Z (g + 1)) (bayerThreshold x y) = true.
Proof.
  revert x y g.
  assert (H : ∀ x y, Forall (λ g, gtb (of_Z g) (bayerThreshold x y) = true →
                                  gtb (of_Z (g + 1)) (bayerThreshold x y) = true)
                            (seqZ 0 255)).
  { apply (bayerThreshold_cases
             (λ t, Forall (λ g, gtb (of_Z g) t = true → gtb (of_Z (g + 1)) t = true)
                          (seqZ 0 255))).
    vm_compute. reflexivity. }
  intros x y g Hg. specialize (H x y). rewrite Forall_forall in H.
  apply H, elem_of_seqZ. lia.
Qed.

Lemma bayer_monotone (x y g1 g2 : Z) :
  0 ≤ g1 → g1 ≤ g2 → g2 ≤ 255 →
  gtb (of_Z g1) (bayerThreshold x y) = true →
  gtb (of_Z g2) (bayerThreshold x y) = true.
Proof.
  intros H1 H12 H2 Hg1.
  assert (Hn : ∀ n : nat, g1 + Z.of_nat n ≤ 255 →
            gtb (of_Z (g1 + Z.of_nat n)) (bayerThreshold x y) = true).
  { induction n as [| n IH]; intros Hle.
    - by rewrite Z.add_0_r.
    - replace (g1 + Z.of_nat (S n)) with (g1 + Z.of_nat n + 1) by lia.
      apply bayer_step; [lia |]. apply IH. lia. }
  replace g2 with (g1 + Z.of_nat (Z.to_nat (g2 - g1))) by lia.
  apply Hn. lia.
Qed.

(** X7. Ordered dithering is monotone in the gray level: at any pixel, if
    the accumulator holds the byte [g1] in one run and a byte [g2 >= g1] in
    another, the colour written by the loop body in the second run is not
    darker than in the first.  Black (0) is always written as 0 and white
    (255) as 255. *)
Theorem X7_bayer_monotone (width : Z) (eb1 eb2 : list number) (data : list Z)
    (x y g1 g2 c : Z) :
  0 ≤ x → 0 ≤ y → 0 ≤ width →
  (y * width + x) * 4 + 2 < Z.of_nat (length data) →
  0 ≤ c < 3 →
  0 ≤ g1 → g1 ≤ g2 → g2 ≤ 255 →
  f32_get eb1 (y * width + x) = of_Z g1 →
  f32_get eb2 (y * width + x) = of_Z g2 →
  ∃ o1 o2,
    at_index (bayerBody width eb1 data x y) ((y * width + x) * 4 + c) = Some o1
    ∧ at_index (bayerBody width eb2 data x y) ((y * width + x) * 4 + c) = Some o2
    ∧ o1 ≤ o2
    ∧ (g1 = 0 → o1 = 0)
    ∧ (g2 = 255 → o2 = 255).
Proof.
  intros Hx Hy Hw Hlen Hc H1 H12 H2 He1 He2.
  eexists _, _.
  rewrite !bayerBody_self by (done || nia). rewrite He1, He2.
  split; [reflexivity |]. split; [reflexivity |].
  destruct (bayer_black_white x y) as [Hb Hwh].
  split; [| split].
  - destruct (gtb (of_Z g1) _) eqn:E1.
    + by rewrite (bayer_monotone x y g1 g2).
    + by destruct (gtb (of_Z g2) _).
  - intros ->. by rewrite Hb.
  - intros ->. by rewrite Hwh.
Qed.

Lemma X7_bayer_monotone_witness :
  (0 ≤ 1 ∧ 0 ≤ 1 ∧ 0 ≤ 2)
  ∧ (1 * 2 + 1) * 4 + 2 < Z.of_nat (length (replicate 16 7))
  ∧ 0 ≤ 0 < 3
  ∧ (0 ≤ 60 ∧ 60 ≤ 70 ∧ 70 ≤ 255)
  ∧ f32_get (replicate 4 (of_Z 60)) (1 * 2 + 1) = of_Z 60
  ∧ f32_get (replicate 4 (of_Z 70)) (1 * 2 + 1) = of_Z 70
  ∧ ∃ o1 o2,
      at_index (bayerBody 2 (replicate 4 (of_Z 60)) (replicate 16 7) 1 1) 12 = Some o1
      ∧ at_index (bayerBody 2 (replicate 4 (of_Z 70)) (replicate 16 7) 1 1) 12 = Some o2
      ∧ o1 ≤ o2.
Proof.
  assert (Hc : 0 ≤ 0 < 3) by lia.
  assert (Hlen : (1 * 2 + 1) * 4 + 2 < Z.of_nat (length (replicate 16 7)))
    by (simpl; lia).
  split; [lia |]. split; [exact Hlen |]. split; [exact Hc |]. split; [lia |].
  split; [reflexivity |]. split; [reflexivity |].
  destruct (X7_bayer_monotone 2 (replicate 4 (of_Z 60)) (replicate 4 (of_Z 70))
              (replicate 16 7) 1 1 60 70 0
              ltac:(lia) ltac:(lia) ltac:(lia) Hlen Hc
              ltac:(lia) ltac:(lia) ltac:(lia) eq_refl eq_refl)
    as (o1 & o2 & Ho1 & Ho2 & Hle & _).
  exists o1, o2. split; [exact Ho1 |]. split; [exact Ho2 | exact Hle].
Defined.

(** X8. The modes the select offers ([DITHER_MODES]) are seven distinct
    names, the first being the initial algorithm, and they are exactly the
    selectors for which [processImage] has a named branch: Grayscale-only,
    Bayer 4x4, or one of the five kernels, whose table the distribution step
    then applies.  No mode of the select takes the fall-through in which no
    error is distributed. *)
Theorem X8_modes_have_branches (m : DitherAlgorithm) :
  NoDup DITHER_MODES
  ∧ length DITHER_MODES = 7%nat
  ∧ head DITHER_MODES = Some (algorithm INITIAL_SETTINGS)
  ∧ (m ∈ DITHER_MODES ↔ m = Grayscale ∨ m = Bayer4x4 ∨ ∃ k, m = kernelName k)
  ∧ (m ∈ DITHER_MODES → m ≠ Grayscale → m ≠ Bayer4x4 →
     ∃ k, kernelTable k ≠ []
          ∧ ∀ width height x y err acc,
              distributeError width height m x y err acc
              = applyKernel width height k x y err acc).
Proof.
  split; [compute_done |]. split; [done |]. split; [done |].
  assert (Hiff : m ∈ DITHER_MODES ↔ m = Grayscale ∨ m = Bayer4x4 ∨ ∃ k, m = kernelName k).
  { unfold DITHER_MODES. rewrite !elem_of_cons, elem_of_nil. split.
    - intros [-> | [-> | [-> | [-> | [-> | [-> | [-> | []]]]]]]]; auto.
      + right; right. by exists KAtkinson.
      + right; right. by exists KFloydSteinberg.
      + right; right. by exists KStucki.
      + right; right. by exists KBurkes.
      + right; right. by exists KSierra.
    - intros [-> | [-> | [[] ->]]]; simpl; auto 10. }
  split; [done |].
  intros Hin Hg Hb. apply Hiff in Hin as [-> | [-> | [k ->]]]; [done | done |].
  exists k. split; [by destruct k |].
  intros. apply distributeError_table.
Qed.

(** * The controls and the theme hook *)

(** [Math.max(1, x)] is NaN when [x] is, and at least 1 otherwise. *)
Lemma Math_max_one (a : number) :
  let r := Math_max (of_Z 1) a in
  r = NaN ∨ r = of_Z 1 ∨ ltb (of_Z 1) r = true.
Proof.
  cbv zeta. unfold Math_max, ltb, SFltb.
  destruct (SFcompare (of_Z 1) a) as [[] |] eqn:Hcmp; auto.
  right. right. by rewrite Hcmp.
Qed.

(** X9. The target dimensions computed before processing are never below
    1: each of width and height is NaN or at least 1, whatever the natural
    size of the image and the scale.  NaN does occur: an image of natural
    size 0 x 0 gives a NaN width. *)
Theorem X9_dimensions_at_least_one (srcWidth srcHeight scale : number) :
  let '(width, height) := targetDimensions srcWidth srcHeight scale in
  (width = NaN ∨ width = of_Z 1 ∨ ltb (of_Z 1) width = true)
  ∧ (height = NaN ∨ height = of_Z 1 ∨ ltb (of_Z 1) height = true)
  ∧ targetDimensions (of_Z 0) (of_Z 0) (of_Z 1) = (NaN, of_Z 384)
  ∧ targetDimensions (of_Z 4000) (of_Z 3000) (of_Z 1) = (of_Z 512, of_Z 384).
Proof.
  unfold targetDimensions.
  destruct (ltb srcWidth srcHeight);
    (split; [apply Math_max_one | split; [apply Math_max_one | by vm_compute]]).
Qed.

(** X10. At every position of the resolution slider (10 to 100 in steps of
    5), with the scale the slider handler stores, the normalised side is
    [floor(384 * p / 100)] pixels, between 38 and 384: the width when the
    image is taller than wide, the height otherwise, whatever the natural
    size of the image. *)
Theorem X10_short_side (srcWidth srcHeight : number) (s : ImageSettings) (p : Z) :
  p ∈ resolutionSteps →
  let scale := resolutionScale (onResolutionChange (of_Z p) s) in
  let '(width, height) := targetDimensions srcWidth srcHeight scale in
  (if ltb srcWidth srcHeight then width else height) = of_Z (384 * p / 100)
  ∧ 38 ≤ 384 * p / 100 ≤ 384.
Proof.
  intros Hp. cbv zeta. simpl.
  assert (H : Forall (λ p,
                Math_max (of_Z 1)
                         (Math_floor (mul (of_Z 384) (div (of_Z p) (of_Z 100))))
                = of_Z (384 * p / 100)
                ∧ 38 ≤ 384 * p / 100 ≤ 384) resolutionSteps) by compute_done.
  rewrite Forall_forall in H. specialize (H p Hp).
  unfold targetDimensions. by destruct (ltb srcWidth srcHeight).
Qed.

Lemma X10_short_side_witness :
  55 ∈ resolutionSteps
  ∧ (targetDimensions (of_Z 3000) (of_Z 4000)
       (resolutionScale (onResolutionChange (of_Z 55) INITIAL_SETTINGS))).1
    = of_Z 211.
Proof.
  assert (Hp : 55 ∈ resolutionSteps) by compute_done.
  split; [exact Hp |].
  pose proof (X10_short_side (of_Z 3000) (of_Z 4000) INITIAL_SETTINGS 55 Hp) as H.
  destruct H as [H _]. exact H.
Defined.

(** X11. At every position [p] of the resolution slider, after the handler
    stored [p / 100], the label of the slider ([Math.round] of the value
    [resolutionScale * 100]) shows [p] again.  The value itself does not
    always round-trip: at 55 it is not 55. *)
Theorem X11_resolution_label (s : ImageSettings) (p : Z) :
  p ∈ resolutionSteps →
  resolutionLabel (resolutionSliderValue (onResolutionChange (of_Z p) s)) = of_Z p
  ∧ (p ≠ 55 → resolutionSliderValue (onResolutionChange (of_Z p) s) = of_Z p)
  ∧ resolutionSliderValue (onResolutionChange (of_Z 55) s) ≠ of_Z 55.
Proof.
  intros Hp. unfold resolutionLabel, resolutionSliderValue. simpl.
  assert (H : Forall (λ p,
                Math_round (mul (div (of_Z p) (of_Z 100)) (of_Z 100)) = of_Z p
                ∧ (p ≠ 55 → mul (div (of_Z p) (of_Z 100)) (of_Z 100) = of_Z p))
                resolutionSteps) by compute_done.
  rewrite Forall_forall in H. destruct (H p Hp) as [Hround Hexact].
  split; [done |]. split; [done |]. by vm_compute.
Qed.

Lemma X11_resolution_label_witness :
  55 ∈ resolutionSteps
  ∧ resolutionLabel (resolutionSliderValue (onResolutionChange (of_Z 55) INITIAL_SETTINGS))
    = of_Z 55.
Proof.
  assert (Hp : 55 ∈ resolutionSteps) by compute_done.
  split; [exact Hp |].
  destruct (X11_resolution_label INITIAL_SETTINGS 55 Hp) as [H _]. exact H.
Defined.

Lemma applyTheme_dark (t : string) (b : Browser) :
  "dark" ∈ classList (applyTheme t b)
  ↔ t = "dark" ∨ (t = "system" ∧ prefersDark b = true).
Proof.
  unfold applyTheme. case_decide as Hd; simpl.
  - rewrite elem_of_union, elem_of_singleton. tauto.
  - rewrite elem_of_difference, elem_of_singleton. tauto.
Qed.

Lemma applyTheme_other (t : string) (b : Browser) (c : string) :
  c ≠ "dark" → c ∈ classList (applyTheme t b) ↔ c ∈ classList b.
Proof.
  intros Hc. unfold applyTheme. case_decide as Hd; simpl.
  - rewrite elem_of_union, elem_of_singleton. tauto.
  - rewrite elem_of_difference, elem_of_singleton. tauto.
Qed.

(** X12. After the theme effect ran, the root element carries the class
    [dark] exactly when the theme is ["dark"], or is ["system"] while the
    system prefers dark; every other class and every other storage key is
    as before; the theme is stored under ["theme"], and a later
    initialisation reads it back (any non-empty theme round-trips, while an
    empty or missing entry, or a missing window, gives ["system"]). *)
Theorem X12_theme_effect (theme : string) (b : Browser) :
  let b' := themeEffect theme b in
  ("dark" ∈ classList b' ↔ theme = "dark" ∨ (theme = "system" ∧ prefersDark b = true))
  ∧ (∀ c, c ≠ "dark" → c ∈ classList b' ↔ c ∈ classList b)
  ∧ localStorage b' !! "theme" = Some theme
  ∧ (∀ key, key ≠ "theme" → localStorage b' !! key = localStorage b !! key)
  ∧ prefersDark b' = prefersDark b
  ∧ (theme ≠ "" → initialTheme (Some b') = theme)
  ∧ (theme = "" → initialTheme (Some b') = "system")
  ∧ (localStorage b !! "theme" = None → initialTheme (Some b) = "system")
  ∧ initialTheme None = "system".
Proof.
  cbv zeta. unfold themeEffect. simpl.
  split; [apply applyTheme_dark |].
  split; [intros c Hc; by apply applyTheme_other |].
  assert (Hsame : localStorage (applyTheme theme b) = localStorage b
                  ∧ prefersDark (applyTheme theme b) = prefersDark b)
    by (unfold applyTheme; by case_decide).
  destruct Hsame as [Hls Hpd]. rewrite Hls, Hpd.
  split; [apply lookup_insert_eq |].
  split; [intros key Hkey; by rewrite lookup_insert_ne |].
  split; [done |].
  unfold initialTheme. simpl. rewrite lookup_insert_eq.
  split; [intros Hne; by rewrite decide_False |].
  split; [intros ->; by rewrite decide_True |].
  split; [by intros -> | done].
Qed.

(** X13. When the system preference changes, the listener does nothing to
    the classes unless the theme is ["system"]; with ["system"] the class
    [dark] then follows the new preference.  A theme that is none of the
    three names (a foreign value read from storage) removes [dark], like
    ["light"]. *)
Theorem X13_theme_listener (theme : string) (matches : bool) (b : Browser) :
  let b' := themeListener theme matches b in
  (theme ≠ "system" → classList b' = classList b)
  ∧ (theme = "system" → ("dark" ∈ classList b' ↔ matches = true))
  ∧ (∀ c, c ≠ "dark" → c ∈ classList b' ↔ c ∈ classList b)
  ∧ localStorage b' = localStorage b
  ∧ (theme ≠ "dark" → theme ≠ "system" → "dark" ∉ classList (applyTheme theme b)).
Proof.
  cbv zeta. unfold themeListener.
  split; [intros Hne; by rewrite decide_False |].
  split; [| split; [| split]].
  - intros ->. rewrite decide_True by done. rewrite applyTheme_dark. simpl.
    split; [by intros [? | [_ ?]] | auto].
  - intros c Hc. case_decide; [| done]. by rewrite applyTheme_other.
  - case_decide; [| done]. unfold applyTheme. by case_decide.
  - intros Hd Hs. rewrite applyTheme_dark. by intros [? | [? _]].
Qed.



(** The integers from [lo] to [hi]. *)
Lemma Forall_range (P : Z → Prop) (lo hi : Z) :
  Forall P (seqZ lo (hi - lo + 1)) → ∀ v, lo ≤ v ≤ hi → P v.
Proof.
  intros H v Hv. rewrite Forall_forall in H. apply H, elem_of_seqZ. lia.
Qed.

(** X15. The fill percentage of the brightness and contrast sliders
    (minimum -100, maximum 100, integer positions) is 0 at the minimum, 100
    at the maximum, and strictly increasing in between, so it always lies
    in [0, 100].  A slider whose minimum equals its maximum has a NaN
    percentage. *)
Theorem X15_slider_percentage (v : Z) :
  -100 ≤ v ≤ 100 →
  let pct v := percentage (of_Z v) (of_Z (-100)) (of_Z 100) in
  pct (-100) = of_Z 0
  ∧ pct 100 = of_Z 100
  ∧ (v < 100 → ltb (pct v) (pct (v + 1)) = true)
  ∧ SFleb (of_Z 0) (pct v) = true
  ∧ SFleb (pct v) (of_Z 100) = true
  ∧ percentage (of_Z 5) (of_Z 5) (of_Z 5) = NaN.
Proof.
  intros Hv. cbv zeta.
  split; [by vm_compute |]. split; [by vm_compute |].
  assert (H : Forall (λ v,
                (v < 100 →
                 ltb (percentage (of_Z v) (of_Z (-100)) (of_Z 100))
                     (percentage (of_Z (v + 1)) (of_Z (-100)) (of_Z 100)) = true)
                ∧ SFleb (of_Z 0) (percentage (of_Z v) (of_Z (-100)) (of_Z 100)) = true
                ∧ SFleb (percentage (of_Z v) (of_Z (-100)) (of_Z 100)) (of_Z 100) = true)
                (seqZ (-100) (100 - -100 + 1))) by compute_done.
  destruct (Forall_range _ _ _ H v Hv) as (Hlt & Hlo & Hhi).
  split; [done |]. split; [done |]. split; [done |]. by vm_compute.
Qed.

Lemma X15_slider_percentage_witness :
  -100 ≤ 7 ≤ 100
  ∧ SFleb (percentage (of_Z 7) (of_Z (-100)) (of_Z 100)) (of_Z 100) = true.
Proof.
  assert (Hv : -100 ≤ 7 ≤ 100) by lia.
  split; [exact Hv |].
  destruct (X15_slider_percentage 7 Hv) as (_ & _ & _ & _ & H & _). exact H.
Defined.
